(** * Statement AST of the Swift front end (include/swift/AST/Stmt.h)

    A shallow embedding of the statement node classes declared in
    [Stmt.h]: the kind registry, the base node, the fixed-size variants,
    the three container variants with their trailing storage, and the
    setters used by the later resolution pass.

    Conventions.
    - A C++ pointer is a number, [nullptr] is [0].
    - A class is a record; a derived class holds its base class in the
      field [base].  A setter is a function returning the updated record.
    - [assert] is modelled by the [outcome] type: a failed assertion is
      the result [AssertionFailed msg] with the message of the source.
    - A data member that the constructor's initialiser list leaves out and
      that has no default initialiser keeps what the arena's memory held;
      the constructor takes that prior content as its first argument. *)

From stdpp Require Import base decidable option numbers strings list.

Open Scope Z_scope.

(** ** Pointers, locations, identifiers *)

Definition pointer := N.
Definition nullptr : pointer := 0%N.

(** Modelled from the spec: swift/Basic/SourceLoc.h is not part of the
    sources at hand.  A location is a position in the source buffer (the
    header wraps a character pointer); the default-constructed location is
    the invalid one.  Locations of one buffer are ordered by position. *)
Record SourceLoc := { Value : N }.

Definition SourceLoc_default : SourceLoc := {| Value := 0 |}.
Definition isValid (L : SourceLoc) : bool := negb (Value L =? 0)%N.
Definition isInvalid (L : SourceLoc) : bool := negb (isValid L).

Definition loc_le (a b : SourceLoc) : Prop := (Value a <= Value b)%N.

Record SourceRange := { Start : SourceLoc; End : SourceLoc }.

(** [SourceRange(SourceLoc Loc)], the converting constructor used by
    [FallthroughStmt::getSourceRange]. *)
Definition SourceRange_of_loc (L : SourceLoc) : SourceRange :=
  {| Start := L; End := L |}.

(** Modelled from the spec: swift/AST/Identifier.h is not part of the
    sources at hand.  An identifier is a name; the default-constructed
    identifier is the empty name, and [empty] tests for it. *)
Record Identifier := { str : string }.

Definition Identifier_default : Identifier := {| str := EmptyString |}.
Definition empty (I : Identifier) : bool :=
  match str I with EmptyString => true | String _ _ => false end.

(** ** Assertions *)

Inductive outcome (A : Type) : Type :=
| Ok (a : A)
| AssertionFailed (msg : string).
Arguments Ok {A} a.
Arguments AssertionFailed {A} msg.

#[global] Instance outcome_ret : MRet outcome := fun A a => Ok a.
#[global] Instance outcome_bind : MBind outcome := fun A B f m =>
  match m with
  | Ok a => f a
  | AssertionFailed msg => AssertionFailed msg
  end.

#[global] Instance outcome_fmap : FMap outcome := fun A B f m =>
  match m with
  | Ok a => Ok (f a)
  | AssertionFailed msg => AssertionFailed msg
  end.

Definition assert (c : bool) (msg : string) : outcome unit :=
  if c then Ok tt else AssertionFailed msg.

Definition rejected {A} (m : outcome A) : Prop :=
  exists msg, m = AssertionFailed msg.

(** ** The kind registry

    [enum class StmtKind] is generated from StmtNodes.def by two macros:
    [STMT(ID, PARENT)] declares the enumerator [ID] with no initialiser,
    [STMT_RANGE(Id, FirstId, LastId)] declares [First_IdStmt = FirstId]
    and [Last_IdStmt = LastId]. *)

Module StmtKind.
Inductive t : Set :=
| Brace | Return | If | IfConfig
| While | DoWhile | For | ForEach | Switch
| Case | Break | Continue | Fallthrough.

Definition all : list t :=
  [Brace; Return; If; IfConfig; While; DoWhile; For; ForEach; Switch;
   Case; Break; Continue; Fallthrough].
End StmtKind.
Abbreviation StmtKind := StmtKind.t.

#[global] Instance StmtKind_eq_dec : EqDecision StmtKind.
Proof. solve_decision. Defined.

Inductive RangeId : Set := Labeled.

Inductive Enumerator : Set :=
| Id (k : StmtKind)
| First_ (r : RangeId)
| Last_ (r : RangeId).

#[global] Instance RangeId_eq_dec : EqDecision RangeId.
Proof. solve_decision. Defined.
#[global] Instance Enumerator_eq_dec : EqDecision Enumerator.
Proof. solve_decision. Defined.

Inductive DefEntry : Set :=
| STMT (ID : StmtKind)
| STMT_RANGE (Id_ : RangeId) (FirstId LastId : StmtKind).

(** The enumerator declarations one entry expands to: the name and the
    optional initialiser. *)
Definition expand (d : DefEntry) : list (Enumerator * option Enumerator) :=
  match d with
  | STMT k => [(Id k, None)]
  | STMT_RANGE r f l => [(First_ r, Some (Id f)); (Last_ r, Some (Id l))]
  end.

Fixpoint lookup_enum (e : Enumerator) (env : list (Enumerator * Z)) : option Z :=
  match env with
  | [] => None
  | (e', v) :: env' => if decide (e = e') then Some v else lookup_enum e env'
  end.

(** C++ numbering of enumerators: an enumerator with an initialiser takes
    its value, one without takes the previous value plus one, and the first
    takes zero.  [next] is the value an enumerator without initialiser
    would get. *)
Fixpoint number (decls : list (Enumerator * option Enumerator)) (next : Z)
    (env : list (Enumerator * Z)) : list (Enumerator * Z) :=
  match decls with
  | [] => env
  | (e, init) :: decls' =>
      let v := match init with
               | Some e0 => default 0 (lookup_enum e0 env)
               | None => next
               end in
      number decls' (v + 1) ((e, v) :: env)
  end.

Definition enum_of_def (def : list DefEntry) : list (Enumerator * Z) :=
  number (concat (map expand def)) 0 [].

(** Modelled from the spec: swift/AST/StmtNodes.def is not part of the
    sources at hand.  The spec asks for one distinct tag per variant, with
    the label-bearing statements (loops and switch) in one contiguous
    sub-range closed by the range entry; the other variants are listed
    around it. *)
Definition StmtNodes_def : list DefEntry :=
  [ STMT StmtKind.Brace;
    STMT StmtKind.Return;
    STMT StmtKind.If;
    STMT StmtKind.IfConfig;
    STMT StmtKind.While;
    STMT StmtKind.DoWhile;
    STMT StmtKind.For;
    STMT StmtKind.ForEach;
    STMT StmtKind.Switch;
    STMT_RANGE Labeled StmtKind.While StmtKind.Switch;
    STMT StmtKind.Case;
    STMT StmtKind.Break;
    STMT StmtKind.Continue;
    STMT StmtKind.Fallthrough ].

Definition StmtKind_table : list (Enumerator * Z) :=
  Eval vm_compute in enum_of_def StmtNodes_def.

Definition enum_value (e : Enumerator) : Z :=
  default 0 (lookup_enum e StmtKind_table).

Definition kind_value (k : StmtKind) : Z := enum_value (Id k).
Definition First_LabeledStmt : Z := enum_value (First_ Labeled).
Definition Last_LabeledStmt : Z := enum_value (Last_ Labeled).

(** The cast [StmtKind(Kind)] read back as a named enumerator, when the
    value is one. *)
Definition kind_of_value (v : Z) : option StmtKind :=
  find (fun k => bool_decide (kind_value k = v)) StmtKind.all.

(** ** Base node *)

Record Stmt := {
  Kind : Z;                    (* unsigned Kind : 31 *)
  Implicit : Z;                (* unsigned Implicit : 1 *)
  TrailingSemiLoc : SourceLoc  (* public data member *)
}.

(** [Optional<bool>] is [option bool]. *)
Definition getDefaultImplicitFlag (implicit : option bool) (keyLoc : SourceLoc)
    : bool :=
  match implicit with
  | Some b => b
  | None => isInvalid keyLoc
  end.

Definition Stmt_ctor (kind : StmtKind) (implicit : bool) : Stmt :=
  {| Kind := kind_value kind mod 2 ^ 31;
     Implicit := Z.b2z implicit mod 2 ^ 1;
     TrailingSemiLoc := SourceLoc_default |}.

(** [getKind] returns the enumeration value [StmtKind(Kind)]. *)
Definition getKind (S : Stmt) : Z := Kind S.
Definition isImplicit (S : Stmt) : bool := negb (Implicit S =? 0).

Definition set_TrailingSemiLoc (L : SourceLoc) (S : Stmt) : Stmt :=
  {| Kind := Kind S; Implicit := Implicit S; TrailingSemiLoc := L |}.

(** ** Values shared by the variants *)

(** [ASTNode] (swift/AST/ASTNode.h): a pointer union of expression,
    statement and declaration. *)
Inductive ASTNode : Set :=
| ASTExpr (p : pointer)
| ASTStmt (p : pointer)
| ASTDecl (p : pointer).

(** [StmtCondition = llvm::PointerUnion<PatternBindingDecl*, Expr*>]. *)
Inductive StmtCondition : Set :=
| CondPatternBinding (p : pointer)
| CondExpr (p : pointer).

(** [llvm::PointerIntPair<T *, 1, bool>]. *)
Record PointerIntPair := { Pointer : pointer; Int : bool }.

Definition setPointer (p : pointer) (P : PointerIntPair) : PointerIntPair :=
  {| Pointer := p; Int := Int P |}.

(** ** Counters

    The child counts of the container nodes are [unsigned] data members:
    a count is stored through the conversion to 32 bits. *)

Definition unsigned (n : N) : N := (n mod 2 ^ 32)%N.

(** ** Trailing storage

    A container node is allocated in one block: the header and, from
    [this + 1] on, the entries.  [allocate mem n] is the trailing region
    of [n] entries as the arena hands it out, holding the arena's prior
    content [mem]; [copy_from] writes the entries into it one by one. *)

Definition allocate {A} (mem : nat -> A) (n : nat) : list A :=
  map mem (seq 0 n).

Fixpoint copy_from {A} (i : nat) (src : list A) (dst : list A) : list A :=
  match src with
  | [] => dst
  | x :: src' => copy_from (S i) src' (<[i := x]> dst)
  end.

(** [ArrayRef<T>(Data, Length)] over a trailing region. *)
Definition ArrayRef {A} (storage : list A) (Length : N) : list A :=
  take (N.to_nat Length) storage.

(** [ArrayRef::operator[]] and [MutableArrayRef::operator[]]. *)
Definition at_index {A} (a : list A) (Index : nat) : outcome A :=
  match a !! Index with
  | Some x => Ok x
  | None => AssertionFailed "Invalid index!"
  end.

(** ** Label info *)

Module LabeledStmtInfo.
Record t := { Name : Identifier; Loc : SourceLoc }.

Definition default : t :=
  {| Name := Identifier_default; Loc := SourceLoc_default |}.

(** [operator bool]: evaluates to true if set. *)
Definition to_bool (I : t) : bool := negb (empty (Name I)).
End LabeledStmtInfo.

Module LabeledStmt.
Record t := { base : Stmt; LabelInfo : LabeledStmtInfo.t }.

Definition ctor (Kind : StmtKind) (Implicit : bool)
    (LabelInfo : LabeledStmtInfo.t) : t :=
  {| base := Stmt_ctor Kind Implicit; LabelInfo := LabelInfo |}.

Definition getLabelLocOrKeywordLoc (S : t) (L : SourceLoc) : SourceLoc :=
  if LabeledStmtInfo.to_bool (LabelInfo S)
  then LabeledStmtInfo.Loc (LabelInfo S) else L.

Definition getLabelInfo (S : t) : LabeledStmtInfo.t := LabelInfo S.
Definition setLabelInfo (L : LabeledStmtInfo.t) (S : t) : t :=
  {| base := base S; LabelInfo := L |}.

Definition set_base (b : Stmt) (S : t) : t :=
  {| base := b; LabelInfo := LabelInfo S |}.

Definition classof (S : Stmt) : bool :=
  (First_LabeledStmt <=? getKind S) && (getKind S <=? Last_LabeledStmt).
End LabeledStmt.

(** ** Block *)

Module BraceStmt.
Record t := {
  base : Stmt;
  NumElements : N;
  IsConfigBlock : bool;
  IsInactiveConfigBlock : bool;
  LBLoc : SourceLoc;
  RBLoc : SourceLoc;
  ElementsStorage : list ASTNode   (* the memory at [this + 1] *)
}.

(** Modelled from the spec: [BraceStmt::create] and the private
    constructor are defined in Stmt.cpp, which is not part of the sources
    at hand.  The factory allocates the header and the trailing region in
    one block, constructs the header, constructs each child reference
    into the trailing region, and records the count in the [unsigned]
    member [NumElements]; the two configuration flags are only set after
    construction. *)
Definition create (mem : nat -> ASTNode) (lbloc : SourceLoc)
    (elements : list ASTNode) (rbloc : SourceLoc) (implicit : option bool)
    : t :=
  {| base := Stmt_ctor StmtKind.Brace (getDefaultImplicitFlag implicit lbloc);
     NumElements := unsigned (N.of_nat (length elements));
     IsConfigBlock := false;
     IsInactiveConfigBlock := false;
     LBLoc := lbloc;
     RBLoc := rbloc;
     ElementsStorage :=
       copy_from 0 elements (allocate mem (length elements)) |}.

Definition getLBraceLoc (S : t) : SourceLoc := LBLoc S.
Definition getRBraceLoc (S : t) : SourceLoc := RBLoc S.

Definition getSourceRange (S : t) : SourceRange :=
  {| Start := LBLoc S; End := RBLoc S |}.

Definition getElements (S : t) : list ASTNode :=
  ArrayRef (ElementsStorage S) (NumElements S).

(** [getElements()[Index] = n], a write through the mutable view. *)
Definition setElement (Index : nat) (n : ASTNode) (S : t) : outcome t :=
  _ ← at_index (getElements S) Index;
  Ok {| base := base S; NumElements := NumElements S;
        IsConfigBlock := IsConfigBlock S;
        IsInactiveConfigBlock := IsInactiveConfigBlock S;
        LBLoc := LBLoc S; RBLoc := RBLoc S;
        ElementsStorage := <[Index := n]> (ElementsStorage S) |}.

Definition markAsConfigBlock (S : t) : t :=
  {| base := base S; NumElements := NumElements S;
     IsConfigBlock := true;
     IsInactiveConfigBlock := IsInactiveConfigBlock S;
     LBLoc := LBLoc S; RBLoc := RBLoc S;
     ElementsStorage := ElementsStorage S |}.
Definition isConfigBlock (S : t) : bool := IsConfigBlock S.

Definition markAsInactiveConfigBlock (S : t) : t :=
  {| base := base S; NumElements := NumElements S;
     IsConfigBlock := IsConfigBlock S;
     IsInactiveConfigBlock := true;
     LBLoc := LBLoc S; RBLoc := RBLoc S;
     ElementsStorage := ElementsStorage S |}.
Definition isInactiveConfigBlock (S : t) : bool := IsInactiveConfigBlock S.

Definition set_base (b : Stmt) (S : t) : t :=
  {| base := b; NumElements := NumElements S;
     IsConfigBlock := IsConfigBlock S;
     IsInactiveConfigBlock := IsInactiveConfigBlock S;
     LBLoc := LBLoc S; RBLoc := RBLoc S;
     ElementsStorage := ElementsStorage S |}.

Definition classof (S : Stmt) : bool :=
  bool_decide (getKind S = kind_value StmtKind.Brace).
End BraceStmt.

(** ** Return *)

Module ReturnStmt.
Record t := { base : Stmt; ReturnLoc : SourceLoc; Result : pointer }.

Definition ctor (ReturnLoc : SourceLoc) (Result : pointer)
    (implicit : option bool) : t :=
  {| base := Stmt_ctor StmtKind.Return
               (getDefaultImplicitFlag implicit ReturnLoc);
     ReturnLoc := ReturnLoc; Result := Result |}.

Definition getReturnLoc (S : t) : SourceLoc := ReturnLoc S.
Definition hasResult (S : t) : bool := negb (Result S =? 0)%N.
Definition getResult (S : t) : outcome pointer :=
  _ ← assert (negb (Result S =? nullptr)%N) "ReturnStmt doesn't have a result";
  Ok (Result S).
Definition setResult (e : pointer) (S : t) : t :=
  {| base := base S; ReturnLoc := ReturnLoc S; Result := e |}.

(** Modelled from the spec: [ReturnStmt::getSourceRange] is defined in
    Stmt.cpp, which is not part of the sources at hand.  The range of a
    node is the outermost extent of its constituents: here the keyword
    and, when there is one, the result.  [Other_getSourceRange] is the
    range of a node of another family (expression, pattern,
    declaration). *)
Definition getSourceRange (Other_getSourceRange : pointer -> SourceRange)
    (S : t) : SourceRange :=
  {| Start := ReturnLoc S;
     End := if hasResult S then End (Other_getSourceRange (Result S))
            else ReturnLoc S |}.

Definition set_base (b : Stmt) (S : t) : t :=
  {| base := b; ReturnLoc := ReturnLoc S; Result := Result S |}.

Definition classof (S : Stmt) : bool :=
  bool_decide (getKind S = kind_value StmtKind.Return).
End ReturnStmt.

(** ** Conditionals *)

Module IfStmt.
Record t := {
  base : Stmt;
  IfLoc : SourceLoc;
  ElseLoc : SourceLoc;
  Cond : StmtCondition;
  Then : pointer;
  Else : pointer
}.

Definition ctor (IfLoc : SourceLoc) (Cond : StmtCondition) (Then : pointer)
    (ElseLoc : SourceLoc) (Else : pointer) (implicit : option bool) : t :=
  {| base := Stmt_ctor StmtKind.If (getDefaultImplicitFlag implicit IfLoc);
     IfLoc := IfLoc; ElseLoc := ElseLoc; Cond := Cond;
     Then := Then; Else := Else |}.

Definition getIfLoc (S : t) : SourceLoc := IfLoc S.
Definition getElseLoc (S : t) : SourceLoc := ElseLoc S.

Definition getCond (S : t) : StmtCondition := Cond S.
Definition setCond (e : StmtCondition) (S : t) : t :=
  {| base := base S; IfLoc := IfLoc S; ElseLoc := ElseLoc S; Cond := e;
     Then := Then S; Else := Else S |}.

Definition getThenStmt (S : t) : pointer := Then S.
Definition setThenStmt (s : pointer) (S : t) : t :=
  {| base := base S; IfLoc := IfLoc S; ElseLoc := ElseLoc S;
     Cond := Cond S; Then := s; Else := Else S |}.

Definition getElseStmt (S : t) : pointer := Else S.
Definition setElseStmt (s : pointer) (S : t) : t :=
  {| base := base S; IfLoc := IfLoc S; ElseLoc := ElseLoc S;
     Cond := Cond S; Then := Then S; Else := s |}.

Definition set_base (b : Stmt) (S : t) : t :=
  {| base := b; IfLoc := IfLoc S; ElseLoc := ElseLoc S; Cond := Cond S;
     Then := Then S; Else := Else S |}.

(** Modelled from the spec: [IfStmt::getSourceRange] is defined in
    Stmt.cpp.  An [if] with an else branch ends at the end of the else
    branch, and without one at the end of the then branch.
    [Stmt_getSourceRange] is as for a case clause. *)
Definition getSourceRange (Stmt_getSourceRange : pointer -> option SourceRange)
    (S : t) : option SourceRange :=
  R ← Stmt_getSourceRange (if (Else S =? nullptr)%N then Then S else Else S);
  Some {| Start := IfLoc S; End := End R |}.

Definition classof (S : Stmt) : bool :=
  bool_decide (getKind S = kind_value StmtKind.If).
End IfStmt.

Module IfConfigStmt.
Record t := {
  base : Stmt;
  IfBlockIsActive : bool;
  IfLoc : SourceLoc;
  ElseLoc : SourceLoc;
  EndLoc : SourceLoc;
  Cond : pointer;
  Then : pointer;
  Else : pointer
}.

Definition ctor (IfBlockIsActive : bool) (IfLoc : SourceLoc) (Cond : pointer)
    (Then : pointer) (ElseLoc : SourceLoc) (Else : pointer)
    (EndLoc : SourceLoc) : t :=
  {| base := Stmt_ctor StmtKind.IfConfig false;
     IfBlockIsActive := IfBlockIsActive;
     IfLoc := IfLoc; ElseLoc := ElseLoc; EndLoc := EndLoc;
     Cond := Cond; Then := Then; Else := Else |}.

Definition getIfLoc (S : t) : SourceLoc := IfLoc S.
Definition getElseLoc (S : t) : SourceLoc := ElseLoc S.

Definition getThenStmt (S : t) : pointer := Then S.
Definition setThenStmt (s : pointer) (S : t) : t :=
  {| base := base S; IfBlockIsActive := IfBlockIsActive S;
     IfLoc := IfLoc S; ElseLoc := ElseLoc S; EndLoc := EndLoc S;
     Cond := Cond S; Then := s; Else := Else S |}.

Definition isIfBlockActive (S : t) : bool := IfBlockIsActive S.
Definition hasElse (S : t) : bool := isValid (ElseLoc S).
Definition getElseStmt (S : t) : pointer := Else S.
Definition setElseStmt (s : pointer) (S : t) : t :=
  {| base := base S; IfBlockIsActive := IfBlockIsActive S;
     IfLoc := IfLoc S; ElseLoc := ElseLoc S; EndLoc := EndLoc S;
     Cond := Cond S; Then := Then S; Else := s |}.

Definition getActiveStmt (S : t) : pointer :=
  if IfBlockIsActive S then Then S else Else S.

Definition getCond (S : t) : pointer := Cond S.
Definition setCond (e : pointer) (S : t) : t :=
  {| base := base S; IfBlockIsActive := IfBlockIsActive S;
     IfLoc := IfLoc S; ElseLoc := ElseLoc S; EndLoc := EndLoc S;
     Cond := e; Then := Then S; Else := Else S |}.

Definition set_base (b : Stmt) (S : t) : t :=
  {| base := b; IfBlockIsActive := IfBlockIsActive S; IfLoc := IfLoc S;
     ElseLoc := ElseLoc S; EndLoc := EndLoc S; Cond := Cond S;
     Then := Then S; Else := Else S |}.

(** Modelled from the spec: [IfConfigStmt::getSourceRange] is defined in
    Stmt.cpp.  The outermost constituents are the [#if] and the
    [#endif]. *)
Definition getSourceRange (S : t) : SourceRange :=
  {| Start := IfLoc S; End := EndLoc S |}.

Definition classof (S : Stmt) : bool :=
  bool_decide (getKind S = kind_value StmtKind.IfConfig).
End IfConfigStmt.

(** ** Loops *)

Module WhileStmt.
Record t := {
  base : LabeledStmt.t;
  WhileLoc : SourceLoc;
  Cond : StmtCondition;
  Body : pointer
}.

Definition ctor (LabelInfo : LabeledStmtInfo.t) (WhileLoc : SourceLoc)
    (Cond : StmtCondition) (Body : pointer) (implicit : option bool) : t :=
  {| base := LabeledStmt.ctor StmtKind.While
               (getDefaultImplicitFlag implicit WhileLoc) LabelInfo;
     WhileLoc := WhileLoc; Cond := Cond; Body := Body |}.

Definition getCond (S : t) : StmtCondition := Cond S.
Definition setCond (e : StmtCondition) (S : t) : t :=
  {| base := base S; WhileLoc := WhileLoc S; Cond := e; Body := Body S |}.

Definition getBody (S : t) : pointer := Body S.
Definition setBody (s : pointer) (S : t) : t :=
  {| base := base S; WhileLoc := WhileLoc S; Cond := Cond S; Body := s |}.

Definition set_base (b : LabeledStmt.t) (S : t) : t :=
  {| base := b; WhileLoc := WhileLoc S; Cond := Cond S; Body := Body S |}.

(** Modelled from the spec: [WhileStmt::getSourceRange] is defined in
    Stmt.cpp.  The outermost constituents are the label, or the keyword
    without label, and the body. *)
Definition getSourceRange (Stmt_getSourceRange : pointer -> option SourceRange)
    (S : t) : option SourceRange :=
  R ← Stmt_getSourceRange (Body S);
  Some {| Start := LabeledStmt.getLabelLocOrKeywordLoc (base S) (WhileLoc S);
          End := End R |}.

Definition classof (S : Stmt) : bool :=
  bool_decide (getKind S = kind_value StmtKind.While).
End WhileStmt.

Module DoWhileStmt.
Record t := {
  base : LabeledStmt.t;
  DoLoc : SourceLoc;
  WhileLoc : SourceLoc;
  Body : pointer;
  Cond : pointer
}.

Definition ctor (LabelInfo : LabeledStmtInfo.t) (DoLoc : SourceLoc)
    (Cond : pointer) (WhileLoc : SourceLoc) (Body : pointer)
    (implicit : option bool) : t :=
  {| base := LabeledStmt.ctor StmtKind.DoWhile
               (getDefaultImplicitFlag implicit DoLoc) LabelInfo;
     DoLoc := DoLoc; WhileLoc := WhileLoc; Body := Body; Cond := Cond |}.

Definition getBody (S : t) : pointer := Body S.
Definition setBody (s : pointer) (S : t) : t :=
  {| base := base S; DoLoc := DoLoc S; WhileLoc := WhileLoc S; Body := s;
     Cond := Cond S |}.

Definition getCond (S : t) : pointer := Cond S.
Definition setCond (e : pointer) (S : t) : t :=
  {| base := base S; DoLoc := DoLoc S; WhileLoc := WhileLoc S;
     Body := Body S; Cond := e |}.

Definition set_base (b : LabeledStmt.t) (S : t) : t :=
  {| base := b; DoLoc := DoLoc S; WhileLoc := WhileLoc S; Body := Body S;
     Cond := Cond S |}.

(** Modelled from the spec: [DoWhileStmt::getSourceRange] is defined in
    Stmt.cpp.  The outermost constituents are the label, or the keyword
    without label, and the condition after the body. *)
Definition getSourceRange (Other_getSourceRange : pointer -> SourceRange)
    (S : t) : SourceRange :=
  {| Start := LabeledStmt.getLabelLocOrKeywordLoc (base S) (DoLoc S);
     End := End (Other_getSourceRange (Cond S)) |}.

Definition classof (S : Stmt) : bool :=
  bool_decide (getKind S = kind_value StmtKind.DoWhile).
End DoWhileStmt.

Module ForStmt.
Record t := {
  base : LabeledStmt.t;
  ForLoc : SourceLoc;
  Semi1Loc : SourceLoc;
  Semi2Loc : SourceLoc;
  Initializer : pointer;
  InitializerVarDecls : list pointer;
  Cond : pointer;
  Increment : pointer;
  Body : pointer
}.

Definition ctor (LabelInfo : LabeledStmtInfo.t) (ForLoc : SourceLoc)
    (Initializer : pointer) (InitializerVarDecls : list pointer)
    (Semi1Loc : SourceLoc) (Cond : pointer) (Semi2Loc : SourceLoc)
    (Increment : pointer) (Body : pointer) (implicit : option bool) : t :=
  {| base := LabeledStmt.ctor StmtKind.For
               (getDefaultImplicitFlag implicit ForLoc) LabelInfo;
     ForLoc := ForLoc; Semi1Loc := Semi1Loc; Semi2Loc := Semi2Loc;
     Initializer := Initializer;
     InitializerVarDecls := InitializerVarDecls;
     Cond := Cond; Increment := Increment; Body := Body |}.

Definition getInitializer (S : t) : pointer := Initializer S.
Definition setInitializer (V : pointer) (S : t) : t :=
  {| base := base S; ForLoc := ForLoc S; Semi1Loc := Semi1Loc S;
     Semi2Loc := Semi2Loc S; Initializer := V;
     InitializerVarDecls := InitializerVarDecls S; Cond := Cond S;
     Increment := Increment S; Body := Body S |}.

Definition getInitializerVarDecls (S : t) : list pointer := InitializerVarDecls S.
Definition setInitializerVarDecls (D : list pointer) (S : t) : t :=
  {| base := base S; ForLoc := ForLoc S; Semi1Loc := Semi1Loc S;
     Semi2Loc := Semi2Loc S; Initializer := Initializer S;
     InitializerVarDecls := D; Cond := Cond S; Increment := Increment S;
     Body := Body S |}.

Definition getCond (S : t) : pointer := Cond S.
Definition setCond (C : pointer) (S : t) : t :=
  {| base := base S; ForLoc := ForLoc S; Semi1Loc := Semi1Loc S;
     Semi2Loc := Semi2Loc S; Initializer := Initializer S;
     InitializerVarDecls := InitializerVarDecls S; Cond := C;
     Increment := Increment S; Body := Body S |}.

Definition getIncrement (S : t) : pointer := Increment S.
Definition setIncrement (V : pointer) (S : t) : t :=
  {| base := base S; ForLoc := ForLoc S; Semi1Loc := Semi1Loc S;
     Semi2Loc := Semi2Loc S; Initializer := Initializer S;
     InitializerVarDecls := InitializerVarDecls S; Cond := Cond S;
     Increment := V; Body := Body S |}.

Definition getBody (S : t) : pointer := Body S.
Definition setBody (s : pointer) (S : t) : t :=
  {| base := base S; ForLoc := ForLoc S; Semi1Loc := Semi1Loc S;
     Semi2Loc := Semi2Loc S; Initializer := Initializer S;
     InitializerVarDecls := InitializerVarDecls S; Cond := Cond S;
     Increment := Increment S; Body := s |}.

Definition set_base (b : LabeledStmt.t) (S : t) : t :=
  {| base := b; ForLoc := ForLoc S; Semi1Loc := Semi1Loc S;
     Semi2Loc := Semi2Loc S; Initializer := Initializer S;
     InitializerVarDecls := InitializerVarDecls S; Cond := Cond S;
     Increment := Increment S; Body := Body S |}.

(** Modelled from the spec: [ForStmt::getSourceRange] is defined in
    Stmt.cpp.  The outermost constituents are the label, or the keyword
    without label, and the body. *)
Definition getSourceRange (Stmt_getSourceRange : pointer -> option SourceRange)
    (S : t) : option SourceRange :=
  R ← Stmt_getSourceRange (Body S);
  Some {| Start := LabeledStmt.getLabelLocOrKeywordLoc (base S) (ForLoc S);
          End := End R |}.

Definition classof (S : Stmt) : bool :=
  bool_decide (getKind S = kind_value StmtKind.For).
End ForStmt.

Module ForEachStmt.
Record t := {
  base : LabeledStmt.t;
  ForLoc : SourceLoc;
  InLoc : SourceLoc;
  Pat : pointer;
  Sequence : pointer;
  Body : pointer;
  Generator : pointer;
  GeneratorNext : pointer
}.

Definition ctor (LabelInfo : LabeledStmtInfo.t) (ForLoc : SourceLoc)
    (Pat : pointer) (InLoc : SourceLoc) (Sequence : pointer)
    (Body : pointer) (implicit : option bool) : t :=
  {| base := LabeledStmt.ctor StmtKind.ForEach
               (getDefaultImplicitFlag implicit ForLoc) LabelInfo;
     ForLoc := ForLoc; InLoc := InLoc; Pat := Pat;
     Sequence := Sequence; Body := Body;
     Generator := nullptr; GeneratorNext := nullptr |}.


Definition getPattern (S : t) : pointer := Pat S.
Definition setPattern (p : pointer) (S : t) : t :=
  {| base := base S; ForLoc := ForLoc S; InLoc := InLoc S; Pat := p;
     Sequence := Sequence S; Body := Body S; Generator := Generator S;
     GeneratorNext := GeneratorNext S |}.

Definition getSequence (S : t) : pointer := Sequence S.
Definition setSequence (e : pointer) (S : t) : t :=
  {| base := base S; ForLoc := ForLoc S; InLoc := InLoc S; Pat := Pat S;
     Sequence := e; Body := Body S; Generator := Generator S;
     GeneratorNext := GeneratorNext S |}.

Definition getGenerator (S : t) : pointer := Generator S.
Definition setGenerator (G : pointer) (S : t) : t :=
  {| base := base S; ForLoc := ForLoc S; InLoc := InLoc S; Pat := Pat S;
     Sequence := Sequence S; Body := Body S; Generator := G;
     GeneratorNext := GeneratorNext S |}.

Definition getGeneratorNext (S : t) : pointer := GeneratorNext S.
Definition setGeneratorNext (E : pointer) (S : t) : t :=
  {| base := base S; ForLoc := ForLoc S; InLoc := InLoc S; Pat := Pat S;
     Sequence := Sequence S; Body := Body S; Generator := Generator S;
     GeneratorNext := E |}.

Definition getBody (S : t) : pointer := Body S.
Definition setBody (B : pointer) (S : t) : t :=
  {| base := base S; ForLoc := ForLoc S; InLoc := InLoc S; Pat := Pat S;
     Sequence := Sequence S; Body := B; Generator := Generator S;
     GeneratorNext := GeneratorNext S |}.

Definition set_base (b : LabeledStmt.t) (S : t) : t :=
  {| base := b; ForLoc := ForLoc S; InLoc := InLoc S; Pat := Pat S;
     Sequence := Sequence S; Body := Body S; Generator := Generator S;
     GeneratorNext := GeneratorNext S |}.

(** Modelled from the spec: [ForEachStmt::getSourceRange] is defined in
    Stmt.cpp.  The outermost constituents are the label, or the keyword
    without label, and the body. *)
Definition getSourceRange (Stmt_getSourceRange : pointer -> option SourceRange)
    (S : t) : option SourceRange :=
  R ← Stmt_getSourceRange (Body S);
  Some {| Start := LabeledStmt.getLabelLocOrKeywordLoc (base S) (ForLoc S);
          End := End R |}.

Definition classof (S : Stmt) : bool :=
  bool_decide (getKind S = kind_value StmtKind.ForEach).
End ForEachStmt.

(** ** Switch and case *)

Module CaseLabelItem.
Record t := {
  CasePattern : pointer;
  WhereLoc : SourceLoc;
  GuardExprAndIsDefault : PointerIntPair
}.

Definition ctor (IsDefault : bool) (CasePattern : pointer)
    (WhereLoc : SourceLoc) (GuardExpr : pointer) : t :=
  {| CasePattern := CasePattern; WhereLoc := WhereLoc;
     GuardExprAndIsDefault := {| Pointer := GuardExpr; Int := IsDefault |} |}.

Definition getWhereLoc (S : t) : SourceLoc := WhereLoc S.

Definition getPattern (S : t) : pointer := CasePattern S.
Definition setPattern (p : pointer) (S : t) : t :=
  {| CasePattern := p; WhereLoc := WhereLoc S;
     GuardExprAndIsDefault := GuardExprAndIsDefault S |}.

Definition setGuardExpr (e : pointer) (S : t) : t :=
  {| CasePattern := CasePattern S; WhereLoc := WhereLoc S;
     GuardExprAndIsDefault := setPointer e (GuardExprAndIsDefault S) |}.

(** Returns true if this is syntactically a 'default' label. *)
Definition isDefault (S : t) : bool := Int (GuardExprAndIsDefault S).
End CaseLabelItem.

Module CaseStmt.
Record t := {
  base : Stmt;
  CaseLoc : SourceLoc;
  ColonLoc : SourceLoc;
  BodyAndHasBoundDecls : PointerIntPair;
  NumPatterns : N;
  CaseLabelItemsBuffer : list CaseLabelItem.t
}.

(** Modelled from the spec: the private constructor is defined in
    Stmt.cpp, which is not part of the sources at hand.  Same construction
    as for a block: the header, then each label item constructed into the
    trailing region, and the count recorded in the [unsigned] member
    [NumPatterns]; the implicit flag follows the rule of the constructors
    of the header, from the location of the keyword. *)
Definition ctor (mem : nat -> CaseLabelItem.t) (CaseLoc : SourceLoc)
    (CaseLabelItems : list CaseLabelItem.t) (HasBoundDecls : bool)
    (ColonLoc : SourceLoc) (Body : pointer) (Implicit : option bool) : t :=
  {| base := Stmt_ctor StmtKind.Case (getDefaultImplicitFlag Implicit CaseLoc);
     CaseLoc := CaseLoc; ColonLoc := ColonLoc;
     BodyAndHasBoundDecls := {| Pointer := Body; Int := HasBoundDecls |};
     NumPatterns := unsigned (N.of_nat (length CaseLabelItems));
     CaseLabelItemsBuffer :=
       copy_from 0 CaseLabelItems
         (allocate mem (length CaseLabelItems)) |}.

(** Modelled from the spec: [CaseStmt::create] is defined in Stmt.cpp.  A
    case clause holds at least one label item; a clause built from none is
    a violation of the construction contract and fatal.  Otherwise the
    factory allocates header and items in one block and runs the
    constructor. *)
Definition create (mem : nat -> CaseLabelItem.t) (CaseLoc : SourceLoc)
    (CaseLabelItems : list CaseLabelItem.t) (HasBoundDecls : bool)
    (ColonLoc : SourceLoc) (Body : pointer) (Implicit : option bool)
    : outcome t :=
  _ ← assert (negb (bool_decide (CaseLabelItems = [])))
        "case clause needs at least one label item";
  Ok (ctor mem CaseLoc CaseLabelItems HasBoundDecls ColonLoc Body Implicit).

Definition getCaseLabelItems (S : t) : list CaseLabelItem.t :=
  ArrayRef (CaseLabelItemsBuffer S) (NumPatterns S).

(** A write to entry [Index] of [getMutableCaseLabelItems()]: [f] is
    the item's setter, or the assignment of a whole item. *)
Definition updateCaseLabelItem (Index : nat)
    (f : CaseLabelItem.t -> CaseLabelItem.t) (S : t) : outcome t :=
  item ← at_index (getCaseLabelItems S) Index;
  Ok {| base := base S; CaseLoc := CaseLoc S; ColonLoc := ColonLoc S;
        BodyAndHasBoundDecls := BodyAndHasBoundDecls S;
        NumPatterns := NumPatterns S;
        CaseLabelItemsBuffer :=
          <[Index := f item]> (CaseLabelItemsBuffer S) |}.

Definition getBody (S : t) : pointer := Pointer (BodyAndHasBoundDecls S).
Definition setBody (body : pointer) (S : t) : t :=
  {| base := base S; CaseLoc := CaseLoc S; ColonLoc := ColonLoc S;
     BodyAndHasBoundDecls := setPointer body (BodyAndHasBoundDecls S);
     NumPatterns := NumPatterns S;
     CaseLabelItemsBuffer := CaseLabelItemsBuffer S |}.

Definition hasBoundDecls (S : t) : bool := Int (BodyAndHasBoundDecls S).

Definition getLoc (S : t) : SourceLoc := CaseLoc S.

(** [{ getLoc(), getBody()->getEndLoc() }].  [Stmt::getSourceRange], which
    [getEndLoc] calls on the body, is defined in Stmt.cpp; it is the
    argument [Stmt_getSourceRange], from a pointer to the range of the
    statement it refers to, and [None] for a pointer that refers to no
    statement, the null pointer first of all: the call dereferences the
    body and there is no range then. *)
Definition getSourceRange (Stmt_getSourceRange : pointer -> option SourceRange)
    (S : t) : option SourceRange :=
  R ← Stmt_getSourceRange (getBody S);
  Some {| Start := getLoc S; End := End R |}.

Definition isDefault (S : t) : outcome bool :=
  item ← at_index (getCaseLabelItems S) 0;
  Ok (CaseLabelItem.isDefault item).

Definition set_base (b : Stmt) (S : t) : t :=
  {| base := b; CaseLoc := CaseLoc S; ColonLoc := ColonLoc S;
     BodyAndHasBoundDecls := BodyAndHasBoundDecls S;
     NumPatterns := NumPatterns S;
     CaseLabelItemsBuffer := CaseLabelItemsBuffer S |}.

Definition classof (S : Stmt) : bool :=
  bool_decide (getKind S = kind_value StmtKind.Case).
End CaseStmt.

Module SwitchStmt.
Record t := {
  base : LabeledStmt.t;
  SwitchLoc : SourceLoc;
  LBraceLoc : SourceLoc;
  RBraceLoc : SourceLoc;
  SubjectExpr : pointer;
  CaseCount : N;
  CaseBuffer : list pointer
}.

(** The private constructor builds the header; the case buffer at
    [this + 1] is left as allocated.  [CaseCount] is an [unsigned]
    parameter: the argument is converted at the call. *)
Definition ctor (buffer : list pointer) (LabelInfo : LabeledStmtInfo.t)
    (SwitchLoc : SourceLoc) (SubjectExpr : pointer) (LBraceLoc : SourceLoc)
    (CaseCount : N) (RBraceLoc : SourceLoc) (implicit : option bool) : t :=
  {| base := LabeledStmt.ctor StmtKind.Switch
               (getDefaultImplicitFlag implicit SwitchLoc) LabelInfo;
     SwitchLoc := SwitchLoc; LBraceLoc := LBraceLoc; RBraceLoc := RBraceLoc;
     SubjectExpr := SubjectExpr; CaseCount := unsigned CaseCount;
     CaseBuffer := buffer |}.

Definition set_CaseBuffer (buffer : list pointer) (S : t) : t :=
  {| base := base S; SwitchLoc := SwitchLoc S; LBraceLoc := LBraceLoc S;
     RBraceLoc := RBraceLoc S; SubjectExpr := SubjectExpr S;
     CaseCount := CaseCount S; CaseBuffer := buffer |}.

(** Modelled from the spec: [SwitchStmt::create] is defined in Stmt.cpp,
    which is not part of the sources at hand.  It allocates header and
    case buffer in one block, runs the constructor with the number of
    cases, and constructs each case reference into the buffer. *)
Definition create (mem : nat -> pointer) (LabelInfo : LabeledStmtInfo.t)
    (SwitchLoc : SourceLoc) (SubjectExpr : pointer) (LBraceLoc : SourceLoc)
    (Cases : list pointer) (RBraceLoc : SourceLoc) : t :=
  let S := ctor (allocate mem (length Cases)) LabelInfo SwitchLoc
             SubjectExpr LBraceLoc (N.of_nat (length Cases)) RBraceLoc None in
  set_CaseBuffer (copy_from 0 Cases (CaseBuffer S)) S.

Definition getLBraceLoc (S : t) : SourceLoc := LBraceLoc S.
Definition getRBraceLoc (S : t) : SourceLoc := RBraceLoc S.
Definition getLoc (S : t) : SourceLoc := SwitchLoc S.

Definition getSubjectExpr (S : t) : pointer := SubjectExpr S.
Definition setSubjectExpr (e : pointer) (S : t) : t :=
  {| base := base S; SwitchLoc := SwitchLoc S; LBraceLoc := LBraceLoc S;
     RBraceLoc := RBraceLoc S; SubjectExpr := e;
     CaseCount := CaseCount S; CaseBuffer := CaseBuffer S |}.

Definition getCases (S : t) : list pointer :=
  ArrayRef (CaseBuffer S) (CaseCount S).

Definition set_base (b : LabeledStmt.t) (S : t) : t :=
  {| base := b; SwitchLoc := SwitchLoc S; LBraceLoc := LBraceLoc S;
     RBraceLoc := RBraceLoc S; SubjectExpr := SubjectExpr S;
     CaseCount := CaseCount S; CaseBuffer := CaseBuffer S |}.

(** Modelled from the spec: [SwitchStmt::getSourceRange] is defined in
    Stmt.cpp.  The outermost constituents are the label, or the keyword
    without label, and the closing brace. *)
Definition getSourceRange (S : t) : SourceRange :=
  {| Start := LabeledStmt.getLabelLocOrKeywordLoc (base S) (SwitchLoc S);
     End := RBraceLoc S |}.

Definition classof (S : Stmt) : bool :=
  bool_decide (getKind S = kind_value StmtKind.Switch).
End SwitchStmt.

(** ** Branch transfers *)

Module BreakStmt.
Record t := {
  base : Stmt;
  Loc : SourceLoc;
  TargetName : Identifier;
  TargetLoc : SourceLoc;
  Target : pointer
}.

(** The initialiser list names [Loc], [TargetName] and [TargetLoc];
    [Target] is a plain pointer without initialiser and keeps the prior
    content [mem_Target] of its memory. *)
Definition ctor (mem_Target : pointer) (Loc : SourceLoc)
    (TargetName : Identifier) (TargetLoc : SourceLoc)
    (implicit : option bool) : t :=
  {| base := Stmt_ctor StmtKind.Break (getDefaultImplicitFlag implicit Loc);
     Loc := Loc; TargetName := TargetName; TargetLoc := TargetLoc;
     Target := mem_Target |}.

Definition getLoc (S : t) : SourceLoc := Loc S.

Definition getTargetName (S : t) : Identifier := TargetName S.
Definition setTargetName (N : Identifier) (S : t) : t :=
  {| base := base S; Loc := Loc S; TargetName := N;
     TargetLoc := TargetLoc S; Target := Target S |}.
Definition getTargetLoc (S : t) : SourceLoc := TargetLoc S.
Definition setTargetLoc (L : SourceLoc) (S : t) : t :=
  {| base := base S; Loc := Loc S; TargetName := TargetName S;
     TargetLoc := L; Target := Target S |}.

(** The target loop or switch that is broken out of, set by Sema during type checking. *)
Definition setTarget (LS : pointer) (S : t) : t :=
  {| base := base S; Loc := Loc S; TargetName := TargetName S;
     TargetLoc := TargetLoc S; Target := LS |}.
Definition getTarget (S : t) : pointer := Target S.

Definition getSourceRange (S : t) : SourceRange :=
  {| Start := Loc S;
     End := if isValid (TargetLoc S) then TargetLoc S else Loc S |}.

Definition set_base (b : Stmt) (S : t) : t :=
  {| base := b; Loc := Loc S; TargetName := TargetName S;
     TargetLoc := TargetLoc S; Target := Target S |}.

Definition classof (S : Stmt) : bool :=
  bool_decide (getKind S = kind_value StmtKind.Break).
End BreakStmt.

Module ContinueStmt.
Record t := {
  base : Stmt;
  Loc : SourceLoc;
  TargetName : Identifier;
  TargetLoc : SourceLoc;
  Target : pointer
}.

(** The initialiser list names [Loc], [TargetName] and [TargetLoc];
    [Target] is a plain pointer without initialiser and keeps the prior
    content [mem_Target] of its memory. *)
Definition ctor (mem_Target : pointer) (Loc : SourceLoc)
    (TargetName : Identifier) (TargetLoc : SourceLoc)
    (implicit : option bool) : t :=
  {| base := Stmt_ctor StmtKind.Continue (getDefaultImplicitFlag implicit Loc);
     Loc := Loc; TargetName := TargetName; TargetLoc := TargetLoc;
     Target := mem_Target |}.

Definition getLoc (S : t) : SourceLoc := Loc S.

Definition getTargetName (S : t) : Identifier := TargetName S.
Definition setTargetName (N : Identifier) (S : t) : t :=
  {| base := base S; Loc := Loc S; TargetName := N;
     TargetLoc := TargetLoc S; Target := Target S |}.
Definition getTargetLoc (S : t) : SourceLoc := TargetLoc S.
Definition setTargetLoc (L : SourceLoc) (S : t) : t :=
  {| base := base S; Loc := Loc S; TargetName := TargetName S;
     TargetLoc := L; Target := Target S |}.

(** The target loop that is continued, set by Sema during type checking. *)
Definition setTarget (LS : pointer) (S : t) : t :=
  {| base := base S; Loc := Loc S; TargetName := TargetName S;
     TargetLoc := TargetLoc S; Target := LS |}.
Definition getTarget (S : t) : pointer := Target S.

Definition getSourceRange (S : t) : SourceRange :=
  {| Start := Loc S;
     End := if isValid (TargetLoc S) then TargetLoc S else Loc S |}.

Definition set_base (b : Stmt) (S : t) : t :=
  {| base := b; Loc := Loc S; TargetName := TargetName S;
     TargetLoc := TargetLoc S; Target := Target S |}.

Definition classof (S : Stmt) : bool :=
  bool_decide (getKind S = kind_value StmtKind.Continue).
End ContinueStmt.

Module FallthroughStmt.
Record t := {
  base : Stmt;
  Loc : SourceLoc;
  FallthroughDest : pointer
}.

Definition ctor (Loc : SourceLoc) (implicit : option bool) : t :=
  {| base := Stmt_ctor StmtKind.Fallthrough
               (getDefaultImplicitFlag implicit Loc);
     Loc := Loc; FallthroughDest := nullptr |}.

Definition getLoc (S : t) : SourceLoc := Loc S.

Definition getSourceRange (S : t) : SourceRange := SourceRange_of_loc (Loc S).

(** The case block to which the fallthrough transfers control; set
    during Sema. *)
Definition getFallthroughDest (S : t) : outcome pointer :=
  _ ← assert (negb (FallthroughDest S =? nullptr)%N)
        "fallthrough dest is not set until Sema";
  Ok (FallthroughDest S).
Definition setFallthroughDest (C : pointer) (S : t) : outcome t :=
  _ ← assert (FallthroughDest S =? nullptr)%N
        "fallthrough dest already set?!";
  Ok {| base := base S; Loc := Loc S; FallthroughDest := C |}.

Definition set_base (b : Stmt) (S : t) : t :=
  {| base := b; Loc := Loc S; FallthroughDest := FallthroughDest S |}.

Definition classof (S : Stmt) : bool :=
  bool_decide (getKind S = kind_value StmtKind.Fallthrough).
End FallthroughStmt.

(** ** Nodes and the public mutating interface

    A node of the arena is an object of one of the thirteen concrete
    classes.  [Stmt] deletes its copy constructor and copy assignment, so a
    node is never overwritten as a whole; what can change a node after
    construction is the list of non-const public members below. *)

Inductive Node : Type :=
| NBrace (S : BraceStmt.t)
| NReturn (S : ReturnStmt.t)
| NIf (S : IfStmt.t)
| NIfConfig (S : IfConfigStmt.t)
| NWhile (S : WhileStmt.t)
| NDoWhile (S : DoWhileStmt.t)
| NFor (S : ForStmt.t)
| NForEach (S : ForEachStmt.t)
| NCase (S : CaseStmt.t)
| NSwitch (S : SwitchStmt.t)
| NBreak (S : BreakStmt.t)
| NContinue (S : ContinueStmt.t)
| NFallthrough (S : FallthroughStmt.t).

(** The [Stmt] sub-object of a node (the upcast to [Stmt *]). *)
Definition Node_base (n : Node) : Stmt :=
  match n with
  | NBrace X => BraceStmt.base X
  | NReturn X => ReturnStmt.base X
  | NIf X => IfStmt.base X
  | NIfConfig X => IfConfigStmt.base X
  | NWhile X => LabeledStmt.base (WhileStmt.base X)
  | NDoWhile X => LabeledStmt.base (DoWhileStmt.base X)
  | NFor X => LabeledStmt.base (ForStmt.base X)
  | NForEach X => LabeledStmt.base (ForEachStmt.base X)
  | NCase X => CaseStmt.base X
  | NSwitch X => LabeledStmt.base (SwitchStmt.base X)
  | NBreak X => BreakStmt.base X
  | NContinue X => ContinueStmt.base X
  | NFallthrough X => FallthroughStmt.base X
  end.

(** An update of the [Stmt] sub-object in place. *)
Definition Node_map_base (f : Stmt -> Stmt) (n : Node) : Node :=
  let lab L := LabeledStmt.set_base (f (LabeledStmt.base L)) L in
  match n with
  | NBrace X => NBrace (BraceStmt.set_base (f (BraceStmt.base X)) X)
  | NReturn X => NReturn (ReturnStmt.set_base (f (ReturnStmt.base X)) X)
  | NIf X => NIf (IfStmt.set_base (f (IfStmt.base X)) X)
  | NIfConfig X => NIfConfig (IfConfigStmt.set_base (f (IfConfigStmt.base X)) X)
  | NWhile X => NWhile (WhileStmt.set_base (lab (WhileStmt.base X)) X)
  | NDoWhile X => NDoWhile (DoWhileStmt.set_base (lab (DoWhileStmt.base X)) X)
  | NFor X => NFor (ForStmt.set_base (lab (ForStmt.base X)) X)
  | NForEach X => NForEach (ForEachStmt.set_base (lab (ForEachStmt.base X)) X)
  | NCase X => NCase (CaseStmt.set_base (f (CaseStmt.base X)) X)
  | NSwitch X => NSwitch (SwitchStmt.set_base (lab (SwitchStmt.base X)) X)
  | NBreak X => NBreak (BreakStmt.set_base (f (BreakStmt.base X)) X)
  | NContinue X => NContinue (ContinueStmt.set_base (f (ContinueStmt.base X)) X)
  | NFallthrough X =>
      NFallthrough (FallthroughStmt.set_base (f (FallthroughStmt.base X)) X)
  end.

(** The [LabeledStmt] sub-object of a loop or switch, updated in place;
    [cast<LabeledStmt>] asserts on any other node. *)
Definition incompatible {A} : outcome A :=
  AssertionFailed "cast<Ty>() argument of incompatible type!".

Definition Node_map_labeled (f : LabeledStmt.t -> LabeledStmt.t) (n : Node)
    : outcome Node :=
  match n with
  | NWhile X => Ok (NWhile (WhileStmt.set_base (f (WhileStmt.base X)) X))
  | NDoWhile X => Ok (NDoWhile (DoWhileStmt.set_base (f (DoWhileStmt.base X)) X))
  | NFor X => Ok (NFor (ForStmt.set_base (f (ForStmt.base X)) X))
  | NForEach X => Ok (NForEach (ForEachStmt.set_base (f (ForEachStmt.base X)) X))
  | NSwitch X => Ok (NSwitch (SwitchStmt.set_base (f (SwitchStmt.base X)) X))
  | _ => incompatible
  end.

(** The writes the header offers on a node: every non-const public member
    function it defines, a write through one of the two mutable views, and
    the public data member.  [Stmt::walk] is only declared in the header
    and belongs to the traversal framework; it is not modelled. *)
Inductive Mutator : Type :=
| Stmt_TrailingSemiLoc (L : SourceLoc)
| Labeled_setLabelInfo (L : LabeledStmtInfo.t)
| Brace_setElement (Index : nat) (n : ASTNode)
| Brace_markAsConfigBlock
| Brace_markAsInactiveConfigBlock
| Return_setResult (e : pointer)
| If_setCond (e : StmtCondition)
| If_setThenStmt (s : pointer)
| If_setElseStmt (s : pointer)
| IfConfig_setThenStmt (s : pointer)
| IfConfig_setElseStmt (s : pointer)
| IfConfig_setCond (e : pointer)
| While_setCond (e : StmtCondition)
| While_setBody (s : pointer)
| DoWhile_setBody (s : pointer)
| DoWhile_setCond (e : pointer)
| For_setInitializer (V : pointer)
| For_setInitializerVarDecls (D : list pointer)
| For_setCond (C : pointer)
| For_setIncrement (V : pointer)
| For_setBody (s : pointer)
| ForEach_setPattern (p : pointer)
| ForEach_setSequence (e : pointer)
| ForEach_setGenerator (G : pointer)
| ForEach_setGeneratorNext (E : pointer)
| ForEach_setBody (B : pointer)
| Case_setBody (body : pointer)
| CaseItem_setPattern (Index : nat) (p : pointer)
| CaseItem_setGuardExpr (Index : nat) (e : pointer)
| CaseItem_assign (Index : nat) (item : CaseLabelItem.t)
| Switch_setSubjectExpr (e : pointer)
| Break_setTargetName (N : Identifier)
| Break_setTargetLoc (L : SourceLoc)
| Break_setTarget (LS : pointer)
| Continue_setTargetName (N : Identifier)
| Continue_setTargetLoc (L : SourceLoc)
| Continue_setTarget (LS : pointer)
| Fallthrough_setFallthroughDest (C : pointer).

(** The call of a member on a node held as [Stmt *]: the node is cast to
    the member's class, which asserts on a node of another class. *)
Definition mutate (m : Mutator) (n : Node) : outcome Node :=
  match m, n with
  | Stmt_TrailingSemiLoc L, _ => Ok (Node_map_base (set_TrailingSemiLoc L) n)
  | Labeled_setLabelInfo L, _ => Node_map_labeled (LabeledStmt.setLabelInfo L) n
  | Brace_setElement i x, NBrace X => NBrace <$> BraceStmt.setElement i x X
  | Brace_markAsConfigBlock, NBrace X => Ok (NBrace (BraceStmt.markAsConfigBlock X))
  | Brace_markAsInactiveConfigBlock, NBrace X =>
      Ok (NBrace (BraceStmt.markAsInactiveConfigBlock X))
  | Return_setResult e, NReturn X => Ok (NReturn (ReturnStmt.setResult e X))
  | If_setCond e, NIf X => Ok (NIf (IfStmt.setCond e X))
  | If_setThenStmt s, NIf X => Ok (NIf (IfStmt.setThenStmt s X))
  | If_setElseStmt s, NIf X => Ok (NIf (IfStmt.setElseStmt s X))
  | IfConfig_setThenStmt s, NIfConfig X => Ok (NIfConfig (IfConfigStmt.setThenStmt s X))
  | IfConfig_setElseStmt s, NIfConfig X => Ok (NIfConfig (IfConfigStmt.setElseStmt s X))
  | IfConfig_setCond e, NIfConfig X => Ok (NIfConfig (IfConfigStmt.setCond e X))
  | While_setCond e, NWhile X => Ok (NWhile (WhileStmt.setCond e X))
  | While_setBody s, NWhile X => Ok (NWhile (WhileStmt.setBody s X))
  | DoWhile_setBody s, NDoWhile X => Ok (NDoWhile (DoWhileStmt.setBody s X))
  | DoWhile_setCond e, NDoWhile X => Ok (NDoWhile (DoWhileStmt.setCond e X))
  | For_setInitializer V, NFor X => Ok (NFor (ForStmt.setInitializer V X))
  | For_setInitializerVarDecls D, NFor X =>
      Ok (NFor (ForStmt.setInitializerVarDecls D X))
  | For_setCond C, NFor X => Ok (NFor (ForStmt.setCond C X))
  | For_setIncrement V, NFor X => Ok (NFor (ForStmt.setIncrement V X))
  | For_setBody s, NFor X => Ok (NFor (ForStmt.setBody s X))
  | ForEach_setPattern p, NForEach X => Ok (NForEach (ForEachStmt.setPattern p X))
  | ForEach_setSequence e, NForEach X => Ok (NForEach (ForEachStmt.setSequence e X))
  | ForEach_setGenerator G, NForEach X => Ok (NForEach (ForEachStmt.setGenerator G X))
  | ForEach_setGeneratorNext E, NForEach X =>
      Ok (NForEach (ForEachStmt.setGeneratorNext E X))
  | ForEach_setBody B, NForEach X => Ok (NForEach (ForEachStmt.setBody B X))
  | Case_setBody body, NCase X => Ok (NCase (CaseStmt.setBody body X))
  | CaseItem_setPattern i p, NCase X =>
      NCase <$> CaseStmt.updateCaseLabelItem i (CaseLabelItem.setPattern p) X
  | CaseItem_setGuardExpr i e, NCase X =>
      NCase <$> CaseStmt.updateCaseLabelItem i (CaseLabelItem.setGuardExpr e) X
  | CaseItem_assign i item, NCase X =>
      NCase <$> CaseStmt.updateCaseLabelItem i (fun _ => item) X
  | Switch_setSubjectExpr e, NSwitch X => Ok (NSwitch (SwitchStmt.setSubjectExpr e X))
  | Break_setTargetName N, NBreak X => Ok (NBreak (BreakStmt.setTargetName N X))
  | Break_setTargetLoc L, NBreak X => Ok (NBreak (BreakStmt.setTargetLoc L X))
  | Break_setTarget LS, NBreak X => Ok (NBreak (BreakStmt.setTarget LS X))
  | Continue_setTargetName N, NContinue X =>
      Ok (NContinue (ContinueStmt.setTargetName N X))
  | Continue_setTargetLoc L, NContinue X =>
      Ok (NContinue (ContinueStmt.setTargetLoc L X))
  | Continue_setTarget LS, NContinue X => Ok (NContinue (ContinueStmt.setTarget LS X))
  | Fallthrough_setFallthroughDest C, NFallthrough X =>
      NFallthrough <$> FallthroughStmt.setFallthroughDest C X
  | _, _ => incompatible
  end.

(** * Statements and examples

    The predicates the properties are stated with, and the nodes they are
    tried on. *)

(** ** The registry *)

Definition is_labeled_kind (k : StmtKind) : bool :=
  match k with
  | StmtKind.While | StmtKind.DoWhile | StmtKind.For | StmtKind.ForEach
  | StmtKind.Switch => true
  | _ => false
  end.

(** A definition file of the expected shape: the kinds [pre], then the
    labeled kinds closed by their range entry, then the kinds [post]. *)
Definition StmtNodes_def_of (pre labeled post : list StmtKind)
    (first last : StmtKind) : list DefEntry :=
  map STMT pre ++ map STMT labeled ++ [STMT_RANGE Labeled first last]
  ++ map STMT post.

(** The two comparisons of [LabeledStmt::classof] over a table. *)
Definition range_check (table : list (Enumerator * Z)) (k : StmtKind) : bool :=
  let value e := default 0 (lookup_enum e table) in
  (value (First_ Labeled) <=? value (Id k))
  && (value (Id k) <=? value (Last_ Labeled)).

(** The kinds [ks] numbered from [n] on. *)
Definition numbered (n : Z) (ks : list StmtKind) : list (Enumerator * Z) :=
  imap (fun i k => (Id k, n + Z.of_nat i)) ks.

(** The table such a file expands to, written out. *)
Definition table_labeled (pre labeled : list StmtKind) : list (Enumerator * Z) :=
  reverse (numbered (Z.of_nat (length pre)) labeled) ++ reverse (numbered 0 pre).

Definition table_explicit (pre labeled post : list StmtKind)
    : list (Enumerator * Z) :=
  let np := Z.of_nat (length pre) in
  let nl := Z.of_nat (length labeled) in
  reverse (numbered (np + nl) post)
  ++ (Last_ Labeled, np + nl - 1) :: (First_ Labeled, np)
  :: table_labeled pre labeled.

(** ** Containers *)


(** ** Case clauses *)

Definition example_default : CaseStmt.t :=
  CaseStmt.ctor (fun _ => CaseLabelItem.ctor false 99%N SourceLoc_default 99%N)
    {| Value := 92 |} [CaseLabelItem.ctor true 14%N SourceLoc_default nullptr]
    false {| Value := 93 |} 23%N None.

Definition example_items : list CaseLabelItem.t :=
  [ CaseLabelItem.ctor false 11%N SourceLoc_default nullptr;
    CaseLabelItem.ctor true 12%N {| Value := 40 |} 13%N ].

Definition example_case : CaseStmt.t :=
  CaseStmt.ctor (fun _ => CaseLabelItem.ctor true 99%N SourceLoc_default 99%N)
    {| Value := 30 |} example_items false {| Value := 45 |} 20%N None.

(** ** Branch targets *)

(** The resolution interface the three branch-transfer statements offer:
    the setter and the getter of the target. *)
Class BranchTransfer (T : Type) := {
  resolve : pointer -> T -> outcome T;
  target : T -> outcome pointer
}.

#[global] Instance BreakStmt_transfer : BranchTransfer BreakStmt.t := {|
  resolve LS S := Ok (BreakStmt.setTarget LS S);
  target S := Ok (BreakStmt.getTarget S)
|}.

#[global] Instance ContinueStmt_transfer : BranchTransfer ContinueStmt.t := {|
  resolve LS S := Ok (ContinueStmt.setTarget LS S);
  target S := Ok (ContinueStmt.getTarget S)
|}.

#[global] Instance FallthroughStmt_transfer : BranchTransfer FallthroughStmt.t := {|
  resolve C S := FallthroughStmt.setFallthroughDest C S;
  target S := FallthroughStmt.getFallthroughDest S
|}.

(** A query signals the unresolved state by failing its assertion or by
    returning the null reference. *)
Definition signals_unresolved (q : outcome pointer) : Prop :=
  rejected q \/ q = Ok nullptr.

(** The protocol of a two-state target on a statement [S] that has not
    been resolved: the query signals it, one resolution with [r] makes the
    getter return [r], and a second resolution is rejected. *)
Definition two_state_target {T} `{BranchTransfer T} (S : T) (r r' : pointer)
    : Prop :=
  signals_unresolved (target S)
  /\ exists S', resolve r S = Ok S'
       /\ target S' = Ok r
       /\ rejected (resolve r' S').

Definition example_break (mem_Target : pointer) : BreakStmt.t :=
  BreakStmt.ctor mem_Target {| Value := 7 |} Identifier_default
    SourceLoc_default None.

Definition example_continue (mem_Target : pointer) : ContinueStmt.t :=
  ContinueStmt.ctor mem_Target {| Value := 7 |} Identifier_default
    SourceLoc_default None.

Definition example_fallthrough : FallthroughStmt.t :=
  FallthroughStmt.ctor {| Value := 7 |} None.

(** ** Source ranges *)

Definition ordered (R : SourceRange) : Prop := loc_le (Start R) (End R).

(** [break outer] built with the name's location before the keyword's,
    and a break with a target location but no target name. *)
Definition example_break_backwards : BreakStmt.t :=
  BreakStmt.ctor nullptr {| Value := 8 |} {| str := "outer" |} {| Value := 3 |} None.

Definition example_break_unnamed : BreakStmt.t :=
  BreakStmt.ctor nullptr {| Value := 8 |} Identifier_default {| Value := 14 |} None.

Definition example_brace : BraceStmt.t :=
  BraceStmt.create (fun _ => ASTExpr 99%N) {| Value := 50 |}
    [ASTStmt 21%N; ASTExpr 22%N; ASTDecl 23%N] {| Value := 90 |} None.

(** *** The arena and the dispatch

    The statements a node refers to live in the same arena.  A pointer
    refers to the node the arena holds at its address; the null pointer
    refers to none. *)

Definition Arena := pointer -> option Node.

Definition deref (h : Arena) (p : pointer) : option Node :=
  if (p =? nullptr)%N then None else h p.

(** Modelled from the spec: the dispatch of [Stmt::getSourceRange] on
    the kind of the node is in Stmt.cpp.  The range a variant computes,
    given the ranges of the statements it refers to
    ([Stmt_getSourceRange]) and of the nodes of other families
    ([Other_getSourceRange]). *)
Definition node_range (Stmt_getSourceRange : pointer -> option SourceRange)
    (Other_getSourceRange : pointer -> SourceRange) (n : Node)
    : option SourceRange :=
  match n with
  | NBrace X => Some (BraceStmt.getSourceRange X)
  | NReturn X => Some (ReturnStmt.getSourceRange Other_getSourceRange X)
  | NIf X => IfStmt.getSourceRange Stmt_getSourceRange X
  | NIfConfig X => Some (IfConfigStmt.getSourceRange X)
  | NWhile X => WhileStmt.getSourceRange Stmt_getSourceRange X
  | NDoWhile X => Some (DoWhileStmt.getSourceRange Other_getSourceRange X)
  | NFor X => ForStmt.getSourceRange Stmt_getSourceRange X
  | NForEach X => ForEachStmt.getSourceRange Stmt_getSourceRange X
  | NCase X => CaseStmt.getSourceRange Stmt_getSourceRange X
  | NSwitch X => Some (SwitchStmt.getSourceRange X)
  | NBreak X => Some (BreakStmt.getSourceRange X)
  | NContinue X => Some (ContinueStmt.getSourceRange X)
  | NFallthrough X => Some (FallthroughStmt.getSourceRange X)
  end.

(** Modelled from the spec: [Stmt::getSourceRange] is defined in Stmt.cpp,
    which is not part of the sources at hand.  The accessor of the base
    node delegates to the range computation of the variant.  The calls
    follow the pointers of the tree; [fuel] bounds their depth, and there
    is no range for a pointer that refers to no node. *)
Fixpoint Stmt_getSourceRange (fuel : nat) (h : Arena)
    (Other_getSourceRange : pointer -> SourceRange) (p : pointer)
    : option SourceRange :=
  match fuel with
  | O => None
  | Datatypes.S fuel' =>
      n ← deref h p;
      node_range (Stmt_getSourceRange fuel' h Other_getSourceRange)
        Other_getSourceRange n
  end.

(** [Stmt::getStartLoc] and [Stmt::getEndLoc]. *)
Definition Stmt_getStartLoc (fuel : nat) (h : Arena)
    (Other_getSourceRange : pointer -> SourceRange) (p : pointer)
    : option SourceLoc :=
  Start <$> Stmt_getSourceRange fuel h Other_getSourceRange p.

Definition Stmt_getEndLoc (fuel : nat) (h : Arena)
    (Other_getSourceRange : pointer -> SourceRange) (p : pointer)
    : option SourceLoc :=
  End <$> Stmt_getSourceRange fuel h Other_getSourceRange p.

(** *** Constituents in source order

    The constituents of a node are its own locations and the ranges of the
    nodes it refers to, in the order in which the construct is written.  A
    location stands for the range from itself to itself.  A constituent
    that the node marks as absent is left out: the label of a statement
    without label, the target location of a break without target, the else
    part of an [if] without else statement, a null optional expression,
    the pattern of a [default] label. *)




Definition nonnull (p : pointer) : bool := negb (p =? nullptr)%N.












(** A small tree: a switch at 10 with the case clause at 11, whose body
    is the block at 20, which holds a break at 21 and an expression. *)
Definition tree_break : BreakStmt.t :=
  BreakStmt.ctor nullptr {| Value := 52 |} {| str := "outer" |} {| Value := 58 |}
    None.

Definition tree_brace : BraceStmt.t :=
  BraceStmt.create (fun _ => ASTExpr 99%N) {| Value := 50 |}
    [ASTStmt 21%N; ASTExpr 22%N; ASTStmt 24%N] {| Value := 90 |} None.

Definition tree_if : IfStmt.t :=
  IfStmt.ctor {| Value := 82 |} (CondExpr 26%N) 27%N {| Value := 87 |} 28%N
    None.

Definition tree_then : BraceStmt.t :=
  BraceStmt.create (fun _ => ASTExpr 99%N) {| Value := 85 |} []
    {| Value := 86 |} None.

Definition tree_else : BraceStmt.t :=
  BraceStmt.create (fun _ => ASTExpr 99%N) {| Value := 88 |} []
    {| Value := 89 |} None.

Definition tree_case : CaseStmt.t :=
  CaseStmt.ctor (fun _ => CaseLabelItem.ctor true 99%N SourceLoc_default 99%N)
    {| Value := 30 |}
    [ CaseLabelItem.ctor false 11%N SourceLoc_default nullptr;
      CaseLabelItem.ctor false 12%N {| Value := 40 |} 13%N ]
    false {| Value := 45 |} 20%N None.

Definition tree_default : CaseStmt.t :=
  CaseStmt.ctor (fun _ => CaseLabelItem.ctor true 99%N SourceLoc_default 99%N)
    {| Value := 92 |} [CaseLabelItem.ctor true 14%N SourceLoc_default nullptr]
    false {| Value := 93 |} 23%N None.

Definition tree_switch : SwitchStmt.t :=
  SwitchStmt.create (fun _ => 99%N)
    {| LabeledStmtInfo.Name := {| str := "outer" |};
       LabeledStmtInfo.Loc := {| Value := 2 |} |} {| Value := 5 |} 15%N
    {| Value := 25 |} [16%N; 17%N] {| Value := 99 |}.

Definition example_arena : Arena := fun p =>
  match p with
  | 10%N => Some (NSwitch tree_switch)
  | 16%N => Some (NCase tree_case)
  | 17%N => Some (NCase tree_default)
  | 20%N => Some (NBrace tree_brace)
  | 21%N => Some (NBreak tree_break)
  | 23%N => Some (NFallthrough (FallthroughStmt.ctor {| Value := 95 |} None))
  | 24%N => Some (NIf tree_if)
  | 27%N => Some (NBrace tree_then)
  | 28%N => Some (NBrace tree_else)
  | _ => None
  end.

(** The ranges of the expressions and patterns of the example. *)
Definition example_other (p : pointer) : SourceRange :=
  match p with
  | 11%N => {| Start := {| Value := 32 |}; End := {| Value := 33 |} |}
  | 12%N => {| Start := {| Value := 35 |}; End := {| Value := 36 |} |}
  | 13%N => {| Start := {| Value := 41 |}; End := {| Value := 44 |} |}
  | 15%N => {| Start := {| Value := 12 |}; End := {| Value := 20 |} |}
  | 22%N => {| Start := {| Value := 60 |}; End := {| Value := 80 |} |}
  | 26%N => {| Start := {| Value := 83 |}; End := {| Value := 84 |} |}
  | _ => {| Start := SourceLoc_default; End := SourceLoc_default |}
  end.

(** The range of a node whose range is made of its own locations alone,
    among the variants whose [getSourceRange] the header defines. *)
Definition own_range (n : Node) : option SourceRange :=
  match n with
  | NBrace X => Some (BraceStmt.getSourceRange X)
  | NBreak X => Some (BreakStmt.getSourceRange X)
  | NContinue X => Some (ContinueStmt.getSourceRange X)
  | NFallthrough X => Some (FallthroughStmt.getSourceRange X)
  | _ => None
  end.

(** ** What the public interface leaves fixed *)

(** The class of a node. *)
Definition Node_class (n : Node) : StmtKind :=
  match n with
  | NBrace _ => StmtKind.Brace
  | NReturn _ => StmtKind.Return
  | NIf _ => StmtKind.If
  | NIfConfig _ => StmtKind.IfConfig
  | NWhile _ => StmtKind.While
  | NDoWhile _ => StmtKind.DoWhile
  | NFor _ => StmtKind.For
  | NForEach _ => StmtKind.ForEach
  | NCase _ => StmtKind.Case
  | NSwitch _ => StmtKind.Switch
  | NBreak _ => StmtKind.Break
  | NContinue _ => StmtKind.Continue
  | NFallthrough _ => StmtKind.Fallthrough
  end.

(** The observable state of a node that no public member writes: the kind
    tag, the implicit flag, the child count and the size of the child
    storage of a container, the locations of keywords, braces, colon and
    semicolons, the active flag of an if-config and the bound-declarations
    flag of a case clause, and the case references of a switch. *)
Record Fixed := {
  fixed_class : StmtKind;
  fixed_kind : Z;
  fixed_implicit : bool;
  fixed_count : option N;
  fixed_storage : nat;
  fixed_locs : list SourceLoc;
  fixed_flags : list bool;
  fixed_cases : list pointer
}.

Definition fixed_part (n : Node) : Fixed :=
  let mk count storage locs flags cases :=
    {| fixed_class := Node_class n;
       fixed_kind := getKind (Node_base n);
       fixed_implicit := isImplicit (Node_base n);
       fixed_count := count; fixed_storage := storage;
       fixed_locs := locs; fixed_flags := flags; fixed_cases := cases |} in
  match n with
  | NBrace X =>
      mk (Some (BraceStmt.NumElements X)) (length (BraceStmt.ElementsStorage X))
         [BraceStmt.LBLoc X; BraceStmt.RBLoc X] [] []
  | NReturn X => mk None 0%nat [ReturnStmt.ReturnLoc X] [] []
  | NIf X => mk None 0%nat [IfStmt.IfLoc X; IfStmt.ElseLoc X] [] []
  | NIfConfig X =>
      mk None 0%nat
         [IfConfigStmt.IfLoc X; IfConfigStmt.ElseLoc X; IfConfigStmt.EndLoc X]
         [IfConfigStmt.IfBlockIsActive X] []
  | NWhile X => mk None 0%nat [WhileStmt.WhileLoc X] [] []
  | NDoWhile X => mk None 0%nat [DoWhileStmt.DoLoc X; DoWhileStmt.WhileLoc X] [] []
  | NFor X =>
      mk None 0%nat [ForStmt.ForLoc X; ForStmt.Semi1Loc X; ForStmt.Semi2Loc X] [] []
  | NForEach X => mk None 0%nat [ForEachStmt.ForLoc X; ForEachStmt.InLoc X] [] []
  | NCase X =>
      mk (Some (CaseStmt.NumPatterns X)) (length (CaseStmt.CaseLabelItemsBuffer X))
         [CaseStmt.CaseLoc X; CaseStmt.ColonLoc X] [CaseStmt.hasBoundDecls X] []
  | NSwitch X =>
      mk (Some (SwitchStmt.CaseCount X)) (length (SwitchStmt.CaseBuffer X))
         [SwitchStmt.SwitchLoc X; SwitchStmt.LBraceLoc X; SwitchStmt.RBraceLoc X]
         [] (SwitchStmt.getCases X)
  | NBreak X => mk None 0%nat [BreakStmt.Loc X] [] []
  | NContinue X => mk None 0%nat [ContinueStmt.Loc X] [] []
  | NFallthrough X => mk None 0%nat [FallthroughStmt.Loc X] [] []
  end.

(** The number of children a container reports. *)
Definition child_count (n : Node) : option nat :=
  match n with
  | NBrace X => Some (length (BraceStmt.getElements X))
  | NCase X => Some (length (CaseStmt.getCaseLabelItems X))
  | NSwitch X => Some (length (SwitchStmt.getCases X))
  | _ => None
  end.

(** The category predicates of the header. *)
Definition classofs : list (Stmt -> bool) :=
  [ BraceStmt.classof; ReturnStmt.classof; IfStmt.classof; IfConfigStmt.classof;
    LabeledStmt.classof; WhileStmt.classof; DoWhileStmt.classof; ForStmt.classof;
    ForEachStmt.classof; CaseStmt.classof; SwitchStmt.classof; BreakStmt.classof;
    ContinueStmt.classof; FallthroughStmt.classof ].

Definition example_while : WhileStmt.t :=
  WhileStmt.ctor LabeledStmtInfo.default {| Value := 5 |} (CondExpr 31%N) 32%N None.

Definition example_label : LabeledStmtInfo.t :=
  {| LabeledStmtInfo.Name := {| str := "outer" |};
     LabeledStmtInfo.Loc := {| Value := 2 |} |}.

(** A run of calls on one node, stopping at the first failed assertion. *)
Fixpoint mutates (ms : list Mutator) (n : Node) : outcome Node :=
  match ms with
  | [] => Ok n
  | m :: ms' => n1 ← mutate m n; mutates ms' n1
  end.

(** The nodes as the constructors and factories leave them. *)
Inductive constructed : Node -> Prop :=
| constructed_Brace mem lbloc elements rbloc implicit :
    constructed (NBrace (BraceStmt.create mem lbloc elements rbloc implicit))
| constructed_Return ReturnLoc Result implicit :
    constructed (NReturn (ReturnStmt.ctor ReturnLoc Result implicit))
| constructed_If IfLoc Cond Then ElseLoc Else implicit :
    constructed (NIf (IfStmt.ctor IfLoc Cond Then ElseLoc Else implicit))
| constructed_IfConfig IfBlockIsActive IfLoc Cond Then ElseLoc Else EndLoc :
    constructed (NIfConfig (IfConfigStmt.ctor IfBlockIsActive IfLoc Cond Then
                              ElseLoc Else EndLoc))
| constructed_While LabelInfo WhileLoc Cond Body implicit :
    constructed (NWhile (WhileStmt.ctor LabelInfo WhileLoc Cond Body implicit))
| constructed_DoWhile LabelInfo DoLoc Cond WhileLoc Body implicit :
    constructed (NDoWhile (DoWhileStmt.ctor LabelInfo DoLoc Cond WhileLoc Body
                             implicit))
| constructed_For LabelInfo ForLoc Initializer InitializerVarDecls Semi1Loc Cond
    Semi2Loc Increment Body implicit :
    constructed (NFor (ForStmt.ctor LabelInfo ForLoc Initializer
                         InitializerVarDecls Semi1Loc Cond Semi2Loc Increment
                         Body implicit))
| constructed_ForEach LabelInfo ForLoc Pat InLoc Sequence Body implicit :
    constructed (NForEach (ForEachStmt.ctor LabelInfo ForLoc Pat InLoc Sequence
                             Body implicit))
| constructed_Case mem CaseLoc CaseLabelItems HasBoundDecls ColonLoc Body Implicit
    C :
    CaseStmt.create mem CaseLoc CaseLabelItems HasBoundDecls ColonLoc Body Implicit
    = Ok C ->
    constructed (NCase C)
| constructed_Switch mem LabelInfo SwitchLoc SubjectExpr LBraceLoc Cases RBraceLoc :
    constructed (NSwitch (SwitchStmt.create mem LabelInfo SwitchLoc SubjectExpr
                            LBraceLoc Cases RBraceLoc))
| constructed_Break mem_Target Loc TargetName TargetLoc implicit :
    constructed (NBreak (BreakStmt.ctor mem_Target Loc TargetName TargetLoc implicit))
| constructed_Continue mem_Target Loc TargetName TargetLoc implicit :
    constructed (NContinue (ContinueStmt.ctor mem_Target Loc TargetName TargetLoc
                              implicit))
| constructed_Fallthrough Loc implicit :
    constructed (NFallthrough (FallthroughStmt.ctor Loc implicit)).

Definition example_run : list Mutator :=
  [ Brace_setElement 1 (ASTStmt 77%N);
    Brace_markAsInactiveConfigBlock;
    Stmt_TrailingSemiLoc {| Value := 91 |} ].

Definition example_resolution : list Mutator :=
  [ Break_setTargetName {| str := "outer" |};
    Break_setTarget 64%N;
    Break_setTarget 72%N ].

(** ** Fields and what the members write *)

Inductive FieldValue : Type :=
| VPtr (p : pointer)
| VLoc (L : SourceLoc)
| VCond (c : StmtCondition)
| VName (N : Identifier)
| VLabel (L : LabeledStmtInfo.t)
| VBool (b : bool)
| VDecls (D : list pointer)
| VNodes (l : list ASTNode)
| VItems (l : list CaseLabelItem.t).

(** The state of a node that some public member writes, by the name of
    the data member. *)
Inductive Field : Set :=
| F_TrailingSemiLoc | F_LabelInfo
| F_Elements | F_IsConfigBlock | F_IsInactiveConfigBlock
| F_Result | F_Cond | F_Then | F_Else | F_Body
| F_Initializer | F_InitializerVarDecls | F_Increment
| F_Pat | F_Sequence | F_Generator | F_GeneratorNext
| F_CaseLabelItems | F_SubjectExpr
| F_TargetName | F_TargetLoc | F_Target | F_FallthroughDest.

#[global] Instance Field_eq_dec : EqDecision Field.
Proof. solve_decision. Defined.

(** The getter of a field on a node; [None] when the node's class has no
    such member. *)
Definition read_labeled (f : Field) (L : LabeledStmt.t) : option FieldValue :=
  match f with
  | F_LabelInfo => Some (VLabel (LabeledStmt.getLabelInfo L))
  | _ => None
  end.

Definition read_own (f : Field) (n : Node) : option FieldValue :=
  match n, f with
  | NBrace X, F_Elements => Some (VNodes (BraceStmt.getElements X))
  | NBrace X, F_IsConfigBlock => Some (VBool (BraceStmt.isConfigBlock X))
  | NBrace X, F_IsInactiveConfigBlock =>
      Some (VBool (BraceStmt.isInactiveConfigBlock X))
  | NReturn X, F_Result => Some (VPtr (ReturnStmt.Result X))
  | NIf X, F_Cond => Some (VCond (IfStmt.getCond X))
  | NIf X, F_Then => Some (VPtr (IfStmt.getThenStmt X))
  | NIf X, F_Else => Some (VPtr (IfStmt.getElseStmt X))
  | NIfConfig X, F_Cond => Some (VPtr (IfConfigStmt.getCond X))
  | NIfConfig X, F_Then => Some (VPtr (IfConfigStmt.getThenStmt X))
  | NIfConfig X, F_Else => Some (VPtr (IfConfigStmt.getElseStmt X))
  | NWhile X, F_Cond => Some (VCond (WhileStmt.getCond X))
  | NWhile X, F_Body => Some (VPtr (WhileStmt.getBody X))
  | NWhile X, _ => read_labeled f (WhileStmt.base X)
  | NDoWhile X, F_Cond => Some (VPtr (DoWhileStmt.getCond X))
  | NDoWhile X, F_Body => Some (VPtr (DoWhileStmt.getBody X))
  | NDoWhile X, _ => read_labeled f (DoWhileStmt.base X)
  | NFor X, F_Initializer => Some (VPtr (ForStmt.getInitializer X))
  | NFor X, F_InitializerVarDecls => Some (VDecls (ForStmt.getInitializerVarDecls X))
  | NFor X, F_Cond => Some (VPtr (ForStmt.getCond X))
  | NFor X, F_Increment => Some (VPtr (ForStmt.getIncrement X))
  | NFor X, F_Body => Some (VPtr (ForStmt.getBody X))
  | NFor X, _ => read_labeled f (ForStmt.base X)
  | NForEach X, F_Pat => Some (VPtr (ForEachStmt.getPattern X))
  | NForEach X, F_Sequence => Some (VPtr (ForEachStmt.getSequence X))
  | NForEach X, F_Generator => Some (VPtr (ForEachStmt.getGenerator X))
  | NForEach X, F_GeneratorNext => Some (VPtr (ForEachStmt.getGeneratorNext X))
  | NForEach X, F_Body => Some (VPtr (ForEachStmt.getBody X))
  | NForEach X, _ => read_labeled f (ForEachStmt.base X)
  | NCase X, F_CaseLabelItems => Some (VItems (CaseStmt.getCaseLabelItems X))
  | NCase X, F_Body => Some (VPtr (CaseStmt.getBody X))
  | NSwitch X, F_SubjectExpr => Some (VPtr (SwitchStmt.getSubjectExpr X))
  | NSwitch X, _ => read_labeled f (SwitchStmt.base X)
  | NBreak X, F_TargetName => Some (VName (BreakStmt.getTargetName X))
  | NBreak X, F_TargetLoc => Some (VLoc (BreakStmt.getTargetLoc X))
  | NBreak X, F_Target => Some (VPtr (BreakStmt.getTarget X))
  | NContinue X, F_TargetName => Some (VName (ContinueStmt.getTargetName X))
  | NContinue X, F_TargetLoc => Some (VLoc (ContinueStmt.getTargetLoc X))
  | NContinue X, F_Target => Some (VPtr (ContinueStmt.getTarget X))
  | NFallthrough X, F_FallthroughDest => Some (VPtr (FallthroughStmt.FallthroughDest X))
  | _, _ => None
  end.

Definition read (f : Field) (n : Node) : option FieldValue :=
  match f with
  | F_TrailingSemiLoc => Some (VLoc (TrailingSemiLoc (Node_base n)))
  | _ => read_own f n
  end.

(** The field a member writes. *)
Definition written (m : Mutator) : Field :=
  match m with
  | Stmt_TrailingSemiLoc _ => F_TrailingSemiLoc
  | Labeled_setLabelInfo _ => F_LabelInfo
  | Brace_setElement _ _ => F_Elements
  | Brace_markAsConfigBlock => F_IsConfigBlock
  | Brace_markAsInactiveConfigBlock => F_IsInactiveConfigBlock
  | Return_setResult _ => F_Result
  | If_setCond _ | IfConfig_setCond _ | While_setCond _ | DoWhile_setCond _
  | For_setCond _ => F_Cond
  | If_setThenStmt _ | IfConfig_setThenStmt _ => F_Then
  | If_setElseStmt _ | IfConfig_setElseStmt _ => F_Else
  | While_setBody _ | DoWhile_setBody _ | For_setBody _ | ForEach_setBody _
  | Case_setBody _ => F_Body
  | For_setInitializer _ => F_Initializer
  | For_setInitializerVarDecls _ => F_InitializerVarDecls
  | For_setIncrement _ => F_Increment
  | ForEach_setPattern _ => F_Pat
  | ForEach_setSequence _ => F_Sequence
  | ForEach_setGenerator _ => F_Generator
  | ForEach_setGeneratorNext _ => F_GeneratorNext
  | CaseItem_setPattern _ _ | CaseItem_setGuardExpr _ _ | CaseItem_assign _ _ =>
      F_CaseLabelItems
  | Switch_setSubjectExpr _ => F_SubjectExpr
  | Break_setTargetName _ | Continue_setTargetName _ => F_TargetName
  | Break_setTargetLoc _ | Continue_setTargetLoc _ => F_TargetLoc
  | Break_setTarget _ | Continue_setTarget _ => F_Target
  | Fallthrough_setFallthroughDest _ => F_FallthroughDest
  end.

(** The value a member stores, for the members that store a whole field;
    a write to one entry of a mutable view has none. *)
Definition stored (m : Mutator) : option FieldValue :=
  match m with
  | Stmt_TrailingSemiLoc L => Some (VLoc L)
  | Labeled_setLabelInfo L => Some (VLabel L)
  | Brace_setElement _ _ => None
  | Brace_markAsConfigBlock | Brace_markAsInactiveConfigBlock => Some (VBool true)
  | Return_setResult e => Some (VPtr e)
  | If_setCond e | While_setCond e => Some (VCond e)
  | IfConfig_setCond e | DoWhile_setCond e | For_setCond e => Some (VPtr e)
  | If_setThenStmt s | IfConfig_setThenStmt s => Some (VPtr s)
  | If_setElseStmt s | IfConfig_setElseStmt s => Some (VPtr s)
  | While_setBody s | DoWhile_setBody s | For_setBody s | ForEach_setBody s
  | Case_setBody s => Some (VPtr s)
  | For_setInitializer V => Some (VPtr V)
  | For_setInitializerVarDecls D => Some (VDecls D)
  | For_setIncrement V => Some (VPtr V)
  | ForEach_setPattern p => Some (VPtr p)
  | ForEach_setSequence e => Some (VPtr e)
  | ForEach_setGenerator G => Some (VPtr G)
  | ForEach_setGeneratorNext E => Some (VPtr E)
  | CaseItem_setPattern _ _ | CaseItem_setGuardExpr _ _ | CaseItem_assign _ _ => None
  | Switch_setSubjectExpr e => Some (VPtr e)
  | Break_setTargetName N | Continue_setTargetName N => Some (VName N)
  | Break_setTargetLoc L | Continue_setTargetLoc L => Some (VLoc L)
  | Break_setTarget LS | Continue_setTarget LS => Some (VPtr LS)
  | Fallthrough_setFallthroughDest C => Some (VPtr C)
  end.

(** The fields written as a whole. *)
Definition whole (f : Field) : bool :=
  match f with
  | F_Elements | F_CaseLabelItems => false
  | _ => true
  end.

(** The value the last write of a run stores in [f], if the run writes
    [f] at all. *)
Fixpoint last_write (f : Field) (ms : list Mutator) : option FieldValue :=
  match ms with
  | [] => None
  | m :: ms' =>
      match last_write f ms' with
      | Some v => Some v
      | None => if decide (written m = f) then stored m else None
      end
  end.

(** The class predicate of each concrete class. *)
Definition classof_of (k : StmtKind) : Stmt -> bool :=
  match k with
  | StmtKind.Brace => BraceStmt.classof
  | StmtKind.Return => ReturnStmt.classof
  | StmtKind.If => IfStmt.classof
  | StmtKind.IfConfig => IfConfigStmt.classof
  | StmtKind.While => WhileStmt.classof
  | StmtKind.DoWhile => DoWhileStmt.classof
  | StmtKind.For => ForStmt.classof
  | StmtKind.ForEach => ForEachStmt.classof
  | StmtKind.Switch => SwitchStmt.classof
  | StmtKind.Case => CaseStmt.classof
  | StmtKind.Break => BreakStmt.classof
  | StmtKind.Continue => ContinueStmt.classof
  | StmtKind.Fallthrough => FallthroughStmt.classof
  end.

Definition is_assign (m : Mutator) : bool :=
  match m with CaseItem_assign _ _ => true | _ => false end.

Definition is_setFallthroughDest (m : Mutator) : bool :=
  match m with Fallthrough_setFallthroughDest _ => true | _ => false end.

Definition example_ifconfig : IfConfigStmt.t :=
  IfConfigStmt.ctor false {| Value := 3 |} 41%N 42%N SourceLoc_default nullptr
    {| Value := 29 |}.

Definition example_return : ReturnStmt.t :=
  ReturnStmt.ctor {| Value := 12 |} 55%N None.

(** * Properties *)

(** ** The registry *)

Lemma StmtKind_table_eq : StmtKind_table = enum_of_def StmtNodes_def.
Proof. vm_compute. reflexivity. Qed.

Lemma kind_value_range (k : StmtKind) : 0 <= kind_value k < 13.
Proof. destruct k; vm_compute; intuition discriminate. Qed.

Lemma kind_value_inj (k1 k2 : StmtKind) : kind_value k1 = kind_value k2 -> k1 = k2.
Proof. destruct k1, k2; vm_compute; intros H; try reflexivity; discriminate. Qed.

Lemma kind_of_value_kind_value (k : StmtKind) : kind_of_value (kind_value k) = Some k.
Proof. destruct k; vm_compute; reflexivity. Qed.

Lemma getKind_Stmt_ctor (k : StmtKind) (implicit : bool) :
  getKind (Stmt_ctor k implicit) = kind_value k.
Proof.
  unfold getKind, Stmt_ctor. cbn [Kind].
  pose proof (kind_value_range k). apply Z.mod_small.
  change (2 ^ 31) with 2147483648. lia.
Qed.

Lemma isImplicit_Stmt_ctor (k : StmtKind) (implicit : bool) :
  isImplicit (Stmt_ctor k implicit) = implicit.
Proof. destruct implicit; reflexivity. Qed.

(** C5.  On a statement whose tag is the one of variant [k], the test for
    a label-bearing statement is the conjunction of two comparisons of the
    tag with the bounds of the labeled range, and it answers true exactly
    for while, do-while, for, for-each and switch. *)
Theorem LabeledStmt_classof_range_check (S : Stmt) (k : StmtKind)
    (Hk : getKind S = kind_value k) :
  LabeledStmt.classof S
    = (kind_value StmtKind.While <=? getKind S)
      && (getKind S <=? kind_value StmtKind.Switch)
  /\ LabeledStmt.classof S = is_labeled_kind k
  /\ (LabeledStmt.classof S = true <->
      k ∈ [StmtKind.While; StmtKind.DoWhile; StmtKind.For; StmtKind.ForEach;
           StmtKind.Switch]).
Proof.
  assert (Hc : LabeledStmt.classof S = is_labeled_kind k).
  { unfold LabeledStmt.classof. rewrite Hk. destruct k; vm_compute; reflexivity. }
  split; [reflexivity|]. split; [exact Hc|].
  rewrite Hc. destruct k; cbn [is_labeled_kind]; split; intros H;
    try reflexivity; try discriminate; try (repeat constructor);
    exfalso; repeat (apply elem_of_cons in H as [H|H]; [discriminate|]);
    by apply elem_of_nil in H.
Qed.

Lemma LabeledStmt_classof_range_check_witness :
  LabeledStmt.classof (Stmt_ctor StmtKind.For false) = true
  /\ LabeledStmt.classof (Stmt_ctor StmtKind.Case false) = false.
Proof.
  split.
  - destruct (LabeledStmt_classof_range_check (Stmt_ctor StmtKind.For false)
                StmtKind.For) as (_ & H & _); [reflexivity | exact H].
  - destruct (LabeledStmt_classof_range_check (Stmt_ctor StmtKind.Case false)
                StmtKind.Case) as (_ & H & _); [reflexivity | exact H].
Defined.

(** *** The range check does not depend on the order of the entries *)

Lemma expand_STMT (ks : list StmtKind) :
  concat (map expand (map STMT ks)) = map (fun k => (Id k, None)) ks.
Proof. induction ks as [|k ks IH]; cbn; [done|]. by rewrite <- IH. Qed.

Lemma numbered_cons n k ks : numbered n (k :: ks) = (Id k, n) :: numbered (n + 1) ks.
Proof.
  unfold numbered. cbn. rewrite Z.add_0_r. f_equal.
  apply imap_ext. intros i x _. cbn. f_equal. lia.
Qed.

Lemma number_stmts (ks : list StmtKind) :
  forall n env rest,
    number (map (fun k => (Id k, None)) ks ++ rest) n env
    = number rest (n + Z.of_nat (length ks)) (reverse (numbered n ks) ++ env).
Proof.
  induction ks as [|k ks IH]; intros n env rest.
  - cbn. by rewrite Z.add_0_r.
  - cbn [map app number]. rewrite IH, numbered_cons, reverse_cons, <- app_assoc.
    cbn [length app]. f_equal. lia.
Qed.

Lemma lookup_enum_elem_of (l : list (Enumerator * Z)) (e : Enumerator) (v : Z) :
  NoDup (l.*1) -> (e, v) ∈ l -> lookup_enum e l = Some v.
Proof.
  induction l as [|[e' v'] l IH]; intros Hnd Hin.
  - by apply elem_of_nil in Hin.
  - cbn in Hnd. apply NoDup_cons in Hnd as [Hnotin Hnd].
    cbn [lookup_enum]. apply elem_of_cons in Hin as [Heq|Hin].
    + injection Heq as -> ->. by rewrite decide_True.
    + destruct (decide (e = e')) as [->|]; [|by apply IH].
      exfalso. apply Hnotin. apply list_elem_of_fmap. by exists (e', v).
Qed.

Lemma numbered_keys n ks : (numbered n ks).*1 = Id <$> ks.
Proof.
  revert n. induction ks as [|k ks IH]; intros n; [done|].
  rewrite numbered_cons. cbn. by rewrite IH.
Qed.

Lemma elem_of_numbered n ks i k :
  ks !! i = Some k -> (Id k, n + Z.of_nat i) ∈ numbered n ks.
Proof.
  intros H. unfold numbered. apply elem_of_lookup_imap. eauto.
Qed.

#[global] Instance Id_inj : Inj (=) (=) Id.
Proof. by intros k1 k2 [= ->]. Qed.

Lemma table_labeled_keys pre labeled :
  (table_labeled pre labeled).*1 = reverse (Id <$> labeled) ++ reverse (Id <$> pre).
Proof.
  unfold table_labeled.
  by rewrite fmap_app, !fmap_reverse, !numbered_keys.
Qed.

Lemma NoDup_table_labeled pre labeled :
  NoDup (pre ++ labeled) -> NoDup ((table_labeled pre labeled).*1).
Proof.
  intros H. rewrite table_labeled_keys.
  apply NoDup_app in H as (Hp & Hpl & Hl).
  apply NoDup_app. split; [rewrite reverse_Permutation; by apply NoDup_fmap_2; [apply _|]|].
  split; [|rewrite reverse_Permutation; by apply NoDup_fmap_2; [apply _|]].
  intros e He He'. rewrite elem_of_reverse in He, He'.
  apply list_elem_of_fmap in He as (k & -> & Hk).
  apply list_elem_of_fmap_inj_2 in He'; [|apply _].
  by apply (Hpl k).
Qed.

Lemma table_is_explicit pre labeled post first last_ :
  NoDup (pre ++ labeled) ->
  head labeled = Some first ->
  last labeled = Some last_ ->
  enum_of_def (StmtNodes_def_of pre labeled post first last_)
  = table_explicit pre labeled post.
Proof.
  intros Hdistinct Hfirst Hlast.
  assert (Hne : (0 < length labeled)%nat) by (destruct labeled; [discriminate|cbn; lia]).
  unfold enum_of_def, StmtNodes_def_of, table_explicit.
  set (np := Z.of_nat (length pre)). set (nl := Z.of_nat (length labeled)).
  rewrite !map_app, !concat_app, !expand_STMT. cbn [map concat expand app].
  rewrite number_stmts, number_stmts. cbn [number app].
  rewrite app_nil_r.
  fold np. rewrite Z.add_0_l. fold nl.
  change (reverse (numbered np labeled) ++ reverse (numbered 0 pre))
    with (table_labeled pre labeled).
  assert (Hf : lookup_enum (Id first) (table_labeled pre labeled) = Some np).
  { apply lookup_enum_elem_of; [by apply NoDup_table_labeled|].
    unfold table_labeled. apply elem_of_app. left. apply elem_of_reverse.
    rewrite head_lookup in Hfirst.
    replace np with (np + Z.of_nat 0) by lia. by apply elem_of_numbered. }
  assert (Hl : lookup_enum (Id last_) (table_labeled pre labeled) = Some (np + nl - 1)).
  { apply lookup_enum_elem_of; [by apply NoDup_table_labeled|].
    unfold table_labeled. apply elem_of_app. left. apply elem_of_reverse.
    rewrite last_lookup in Hlast.
    replace (np + nl - 1) with (np + Z.of_nat (pred (length labeled)))
      by (unfold nl; lia).
    by apply elem_of_numbered. }
  rewrite Hf. cbn [default lookup_enum].
  rewrite decide_False by discriminate. rewrite Hl. cbn [default]. unfold id.
  pose proof (number_stmts post (np + nl - 1 + 1)
                ((Last_ Labeled, np + nl - 1) :: (First_ Labeled, np)
                 :: table_labeled pre labeled) []) as Hn.
  rewrite app_nil_r in Hn. rewrite Hn. cbn [number].
  by replace (np + nl - 1 + 1) with (np + nl) by lia.
Qed.

Lemma elem_of_labeled_keys (e : Enumerator) pre labeled :
  e ∈ reverse (Id <$> labeled) ++ reverse (Id <$> pre)
  <-> exists k, e = Id k /\ k ∈ pre ++ labeled.
Proof.
  rewrite elem_of_app, !elem_of_reverse, !list_elem_of_fmap. split.
  - intros [(k & -> & Hk)|(k & -> & Hk)]; exists k; rewrite elem_of_app; auto.
  - intros (k & -> & Hk). apply elem_of_app in Hk as [Hk|Hk]; eauto.
Qed.

Lemma NoDup_table_explicit pre labeled post :
  NoDup (pre ++ labeled ++ post) -> NoDup ((table_explicit pre labeled post).*1).
Proof.
  intros H. rewrite app_assoc in H. apply NoDup_app in H as (Hpl & Hdisj & Hpost).
  unfold table_explicit. rewrite fmap_app, fmap_reverse, numbered_keys.
  cbn [fmap list_fmap fst]. rewrite table_labeled_keys.
  apply NoDup_app. split; [rewrite reverse_Permutation; by apply NoDup_fmap_2; [apply _|]|].
  split.
  - intros e He He'. rewrite elem_of_reverse in He.
    apply list_elem_of_fmap in He as (k & -> & Hk).
    apply elem_of_cons in He' as [?|He']; [discriminate|].
    apply elem_of_cons in He' as [?|He']; [discriminate|].
    apply elem_of_labeled_keys in He' as (k' & [= <-] & Hk').
    by apply (Hdisj k).
  - apply NoDup_cons. split.
    { intros He. apply elem_of_cons in He as [?|He]; [discriminate|].
      apply elem_of_labeled_keys in He as (? & ? & _). discriminate. }
    apply NoDup_cons. split.
    { intros He. apply elem_of_labeled_keys in He as (? & ? & _). discriminate. }
    rewrite <- table_labeled_keys. by apply NoDup_table_labeled.
Qed.

Lemma elem_of_table_explicit pre labeled post (x : Enumerator * Z) :
  x ∈ table_explicit pre labeled post
  <-> x ∈ numbered (Z.of_nat (length pre) + Z.of_nat (length labeled)) post
      \/ x = (Last_ Labeled, Z.of_nat (length pre) + Z.of_nat (length labeled) - 1)
      \/ x = (First_ Labeled, Z.of_nat (length pre))
      \/ x ∈ numbered (Z.of_nat (length pre)) labeled
      \/ x ∈ numbered 0 pre.
Proof.
  unfold table_explicit, table_labeled.
  by rewrite elem_of_app, !elem_of_cons, elem_of_app, !elem_of_reverse.
Qed.

(** In a table of this shape every kind is numbered by its position. *)
Lemma table_explicit_position pre labeled post i k :
  NoDup (pre ++ labeled ++ post) ->
  (pre ++ labeled ++ post) !! i = Some k ->
  lookup_enum (Id k) (table_explicit pre labeled post) = Some (Z.of_nat i).
Proof.
  intros Hnd Hi.
  apply lookup_enum_elem_of; [by apply NoDup_table_explicit|].
  apply elem_of_table_explicit.
  apply lookup_app_Some in Hi as [Hi|[Hlen Hi]].
  - do 4 right.
    replace (Z.of_nat i) with (0 + Z.of_nat i) by lia. by apply elem_of_numbered.
  - apply lookup_app_Some in Hi as [Hi|[Hlen' Hi]].
    + do 3 right. left.
      replace (Z.of_nat i)
        with (Z.of_nat (length pre) + Z.of_nat (i - length pre)) by lia.
      by apply elem_of_numbered.
    + left.
      replace (Z.of_nat i)
        with (Z.of_nat (length pre) + Z.of_nat (length labeled)
              + Z.of_nat (i - length pre - length labeled)) by lia.
      by apply elem_of_numbered.
Qed.

Lemma table_explicit_bounds pre labeled post :
  NoDup (pre ++ labeled ++ post) ->
  lookup_enum (First_ Labeled) (table_explicit pre labeled post)
  = Some (Z.of_nat (length pre))
  /\ lookup_enum (Last_ Labeled) (table_explicit pre labeled post)
     = Some (Z.of_nat (length pre) + Z.of_nat (length labeled) - 1).
Proof.
  intros Hnd.
  split; (apply lookup_enum_elem_of; [by apply NoDup_table_explicit|]);
    apply elem_of_table_explicit; auto.
Qed.

(** Whatever the order of the entries: when the kinds are listed once
    each and the range entry follows the labeled kinds and names the first
    and the last of them, the two comparisons hold exactly for the labeled
    kinds. *)
Lemma range_check_any_order pre labeled post first last_ k :
  NoDup (pre ++ labeled ++ post) ->
  head labeled = Some first ->
  last labeled = Some last_ ->
  k ∈ pre ++ labeled ++ post ->
  range_check (enum_of_def (StmtNodes_def_of pre labeled post first last_)) k = true
  <-> k ∈ labeled.
Proof.
  intros Hnd Hfirst Hlast Hk.
  assert (Hpl : NoDup (pre ++ labeled)).
  { rewrite app_assoc in Hnd. by apply NoDup_app in Hnd as (? & _ & _). }
  rewrite (table_is_explicit _ _ _ _ _ Hpl Hfirst Hlast).
  apply list_elem_of_lookup in Hk as [i Hi].
  destruct (table_explicit_bounds pre labeled post Hnd) as [Hf Hl].
  unfold range_check.
  rewrite Hf, Hl, (table_explicit_position _ _ _ _ _ Hnd Hi). cbn [default from_option id].
  rewrite andb_true_iff, !Z.leb_le. split.
  - intros [H1 H2].
    apply lookup_app_Some in Hi as [Hi|[_ Hi]];
      [apply lookup_lt_Some in Hi; lia|].
    apply lookup_app_Some in Hi as [Hi|[Hlen Hi]];
      [apply list_elem_of_lookup; eauto | lia].
  - intros Hin. apply list_elem_of_lookup in Hin as [j Hj].
    assert (Hj' : (pre ++ labeled ++ post) !! (length pre + j)%nat = Some k).
    { rewrite lookup_app_r by lia.
      replace (length pre + j - length pre)%nat with j by lia.
      by apply lookup_app_l_Some. }
    assert (i = (length pre + j)%nat) by exact (NoDup_lookup _ _ _ _ Hnd Hi Hj').
    apply lookup_lt_Some in Hj. lia.
Qed.

Lemma classof_is_range_check (S : Stmt) (k : StmtKind) :
  getKind S = kind_value k ->
  LabeledStmt.classof S = range_check StmtKind_table k.
Proof.
  intros H. unfold LabeledStmt.classof, range_check. rewrite H. reflexivity.
Qed.

Lemma StmtNodes_def_shape :
  StmtNodes_def
  = StmtNodes_def_of
      [StmtKind.Brace; StmtKind.Return; StmtKind.If; StmtKind.IfConfig]
      [StmtKind.While; StmtKind.DoWhile; StmtKind.For; StmtKind.ForEach;
       StmtKind.Switch]
      [StmtKind.Case; StmtKind.Break; StmtKind.Continue; StmtKind.Fallthrough]
      StmtKind.While StmtKind.Switch.
Proof. reflexivity. Qed.

(** ** Trailing storage *)

Lemma length_allocate {A} (mem : nat -> A) (n : nat) : length (allocate mem n) = n.
Proof. unfold allocate. by rewrite length_map, length_seq. Qed.

Lemma length_copy_from {A} (src : list A) :
  forall (i : nat) (dst : list A), length (copy_from i src dst) = length dst.
Proof.
  induction src as [|x src IH]; intros i dst; cbn [copy_from]; [done|].
  by rewrite IH, length_insert.
Qed.

(** Writing [src] from slot [i] on leaves the slots before [i] and after
    the copy as they were. *)
Lemma copy_from_spec {A} (src : list A) :
  forall (i : nat) (dst : list A),
    (i + length src <= length dst)%nat ->
    copy_from i src dst = take i dst ++ src ++ drop (i + length src) dst.
Proof.
  induction src as [|x src IH]; intros i dst Hlen; cbn [copy_from length] in *.
  - rewrite Nat.add_0_r. cbn [app]. by rewrite take_drop.
  - rewrite IH by (rewrite length_insert; lia).
    rewrite drop_insert_lt by lia.
    rewrite (take_S_r (<[i:=x]> dst) i x) by (apply list_lookup_insert_eq; lia).
    rewrite take_insert_ge by lia.
    rewrite <- app_assoc. cbn [app].
    by replace (S i + length src)%nat with (i + S (length src))%nat by lia.
Qed.

Lemma copy_from_allocate {A} (mem : nat -> A) (src : list A) :
  copy_from 0 src (allocate mem (length src)) = src.
Proof.
  rewrite copy_from_spec by (rewrite length_allocate; lia).
  rewrite take_0. cbn [app Nat.add].
  rewrite drop_ge by (rewrite length_allocate; lia).
  by rewrite app_nil_r.
Qed.

Lemma ArrayRef_all {A} (l : list A) : ArrayRef l (N.of_nat (length l)) = l.
Proof. unfold ArrayRef. rewrite Nat2N.id. apply firstn_all. Qed.

Lemma unsigned_small (n : N) : (n < 2 ^ 32)%N -> unsigned n = n.
Proof. intros H. unfold unsigned. by apply N.mod_small. Qed.

Lemma ArrayRef_unsigned {A} (l : list A) :
  (N.of_nat (length l) < 2 ^ 32)%N ->
  ArrayRef l (unsigned (N.of_nat (length l))) = l.
Proof. intros H. rewrite unsigned_small by exact H. apply ArrayRef_all. Qed.

Lemma CaseStmt_create_Ok mem CaseLoc items HasBoundDecls ColonLoc Body Implicit C :
  CaseStmt.create mem CaseLoc items HasBoundDecls ColonLoc Body Implicit = Ok C ->
  items <> []
  /\ C = CaseStmt.ctor mem CaseLoc items HasBoundDecls ColonLoc Body Implicit.
Proof.
  unfold CaseStmt.create. destruct (decide (items = [])) as [->|Hne].
  - cbn. discriminate.
  - rewrite bool_decide_eq_false_2 by exact Hne. cbn. by intros [= <-].
Qed.

Lemma CaseStmt_create_nonempty mem CaseLoc items HasBoundDecls ColonLoc Body Implicit :
  items <> [] ->
  CaseStmt.create mem CaseLoc items HasBoundDecls ColonLoc Body Implicit
  = Ok (CaseStmt.ctor mem CaseLoc items HasBoundDecls ColonLoc Body Implicit).
Proof.
  intros Hne. unfold CaseStmt.create.
  by rewrite bool_decide_eq_false_2 by exact Hne.
Qed.

Lemma getCaseLabelItems_ctor mem CaseLoc items HasBoundDecls ColonLoc Body Implicit :
  (N.of_nat (length items) < 2 ^ 32)%N ->
  CaseStmt.getCaseLabelItems
    (CaseStmt.ctor mem CaseLoc items HasBoundDecls ColonLoc Body Implicit) = items.
Proof.
  intros H. unfold CaseStmt.getCaseLabelItems, CaseStmt.ctor.
  cbn [CaseStmt.CaseLabelItemsBuffer CaseStmt.NumPatterns].
  rewrite copy_from_allocate. by apply ArrayRef_unsigned.
Qed.




(** ** Case clauses *)

Lemma CaseStmt_isDefault_first (S : CaseStmt.t) (first : CaseLabelItem.t)
    (rest : list CaseLabelItem.t) :
  CaseStmt.getCaseLabelItems S = first :: rest ->
  CaseStmt.isDefault S = Ok (CaseLabelItem.isDefault first).
Proof. intros H. unfold CaseStmt.isDefault. rewrite H. reflexivity. Qed.

Lemma getCaseLabelItems_update (S S' : CaseStmt.t) (i : nat)
    (f : CaseLabelItem.t -> CaseLabelItem.t) :
  CaseStmt.updateCaseLabelItem i f S = Ok S' ->
  exists item, CaseStmt.getCaseLabelItems S !! i = Some item
    /\ CaseStmt.getCaseLabelItems S' = <[i := f item]> (CaseStmt.getCaseLabelItems S).
Proof.
  unfold CaseStmt.updateCaseLabelItem, at_index.
  destruct (CaseStmt.getCaseLabelItems S !! i) as [item|] eqn:Hi; [|discriminate].
  cbn. intros [= <-]. exists item. split; [reflexivity|].
  unfold CaseStmt.getCaseLabelItems, ArrayRef in *.
  cbn [CaseStmt.CaseLabelItemsBuffer CaseStmt.NumPatterns].
  apply lookup_lt_Some in Hi. rewrite length_take in Hi.
  rewrite take_insert_lt by lia. reflexivity.
Qed.

(** C4.  On a case clause whose label items are [first :: rest],
    [isDefault] returns the default flag held by [first], which is the
    flag the item was constructed with, whatever [rest] is.  The flag is
    read from the item at each call and not held by the clause: after a
    write to the first item the answer is the flag of the new item, and a
    write to any later item does not change it. *)
Theorem CaseStmt_isDefault_is_first_item_flag (S : CaseStmt.t)
    (first : CaseLabelItem.t) (rest : list CaseLabelItem.t)
    (Hitems : CaseStmt.getCaseLabelItems S = first :: rest) :
  CaseStmt.isDefault S = Ok (Int (CaseLabelItem.GuardExprAndIsDefault first))
  /\ CaseStmt.isDefault S = Ok (CaseLabelItem.isDefault first)
  /\ (forall (IsDefault : bool) (CasePattern : pointer) (WhereLoc : SourceLoc)
        (GuardExpr : pointer),
        first = CaseLabelItem.ctor IsDefault CasePattern WhereLoc GuardExpr ->
        CaseStmt.isDefault S = Ok IsDefault)
  /\ (forall f, exists S',
        CaseStmt.updateCaseLabelItem 0 f S = Ok S'
        /\ CaseStmt.isDefault S'
           = Ok (Int (CaseLabelItem.GuardExprAndIsDefault (f first))))
  /\ (forall (IsDefault : bool) (CasePattern : pointer) (WhereLoc : SourceLoc)
        (GuardExpr : pointer), exists S',
        CaseStmt.updateCaseLabelItem 0
          (fun _ => CaseLabelItem.ctor IsDefault CasePattern WhereLoc GuardExpr) S
        = Ok S'
        /\ CaseStmt.isDefault S' = Ok IsDefault)
  /\ (forall i f S',
        CaseStmt.updateCaseLabelItem (Datatypes.S i) f S = Ok S' ->
        CaseStmt.isDefault S'
        = Ok (Int (CaseLabelItem.GuardExprAndIsDefault first))).
Proof.
  assert (Hupd : forall f, exists S',
             CaseStmt.updateCaseLabelItem 0 f S = Ok S'
             /\ CaseStmt.isDefault S'
                = Ok (Int (CaseLabelItem.GuardExprAndIsDefault (f first)))).
  { intros f.
    destruct (CaseStmt.updateCaseLabelItem 0 f S) as [S'|msg] eqn:Hu.
    + exists S'. split; [reflexivity|].
      apply getCaseLabelItems_update in Hu as (item & Hi & HS').
      rewrite Hitems in Hi, HS'. cbn in Hi, HS'. injection Hi as <-.
      by rewrite (CaseStmt_isDefault_first S' (f first) rest HS').
    + exfalso. unfold CaseStmt.updateCaseLabelItem, at_index in Hu.
      rewrite Hitems in Hu. discriminate. }
  rewrite (CaseStmt_isDefault_first S first rest Hitems).
  split; [reflexivity|]. split; [reflexivity|]. split; [by intros ? ? ? ? ->|].
  split; [exact Hupd|]. split.
  - intros IsDefault CasePattern WhereLoc GuardExpr.
    exact (Hupd (fun _ => CaseLabelItem.ctor IsDefault CasePattern WhereLoc
                            GuardExpr)).
  - intros i f S' Hu.
    apply getCaseLabelItems_update in Hu as (item & Hi & HS').
    rewrite Hitems in HS'. cbn in HS'.
    by rewrite (CaseStmt_isDefault_first S' first _ HS').
Qed.

Lemma CaseStmt_isDefault_is_first_item_flag_witness :
  CaseStmt.isDefault example_case = Ok false
  /\ CaseStmt.isDefault example_default = Ok true.
Proof.
  split.
  - apply (CaseStmt_isDefault_is_first_item_flag example_case
             (CaseLabelItem.ctor false 11%N SourceLoc_default nullptr)
             [CaseLabelItem.ctor true 12%N {| Value := 40 |} 13%N]).
    reflexivity.
  - apply (CaseStmt_isDefault_is_first_item_flag example_default
             (CaseLabelItem.ctor true 14%N SourceLoc_default nullptr) []).
    reflexivity.
Defined.

(** A clause built from [first :: rest] by the factory. *)
Lemma CaseStmt_create_isDefault mem CaseLoc IsDefault CasePattern WhereLoc
    GuardExpr rest HasBoundDecls ColonLoc Body Implicit :
  (N.of_nat (length (CaseLabelItem.ctor IsDefault CasePattern WhereLoc GuardExpr
                       :: rest)) < 2 ^ 32)%N ->
  exists C,
    CaseStmt.create mem CaseLoc
      (CaseLabelItem.ctor IsDefault CasePattern WhereLoc GuardExpr :: rest)
      HasBoundDecls ColonLoc Body Implicit = Ok C
    /\ CaseStmt.isDefault C = Ok IsDefault.
Proof.
  intros Hlen. eexists. split; [by apply CaseStmt_create_nonempty|].
  rewrite (CaseStmt_isDefault_first _
             (CaseLabelItem.ctor IsDefault CasePattern WhereLoc GuardExpr) rest);
    [reflexivity|].
  by apply getCaseLabelItems_ctor.
Qed.

(** ** Label info *)

Lemma empty_iff (I : Identifier) : empty I = true <-> str I = EmptyString.
Proof. unfold empty. destruct (str I); split; intros; congruence. Qed.

(** C9.  The label of a loop or switch is a [LabeledStmtInfo] held by
    value in the node: the accessor returns the info given at
    construction for each of the five variants, the default info has the
    empty name and tests false, and the boolean test of any label info is
    true exactly when its name is not empty. *)
Theorem LabeledStmtInfo_bool_iff_name_nonempty :
  (forall I : LabeledStmtInfo.t,
      LabeledStmtInfo.to_bool I = true <-> str (LabeledStmtInfo.Name I) <> EmptyString)
  /\ (forall I : LabeledStmtInfo.t,
      LabeledStmtInfo.to_bool I = false <-> empty (LabeledStmtInfo.Name I) = true)
  /\ (empty (LabeledStmtInfo.Name LabeledStmtInfo.default) = true
      /\ LabeledStmtInfo.to_bool LabeledStmtInfo.default = false)
  /\ (forall (k : StmtKind) (implicit : bool) (L : LabeledStmtInfo.t),
      LabeledStmt.getLabelInfo (LabeledStmt.ctor k implicit L) = L)
  /\ (forall (S : LabeledStmt.t) (L : LabeledStmtInfo.t),
      LabeledStmt.getLabelInfo (LabeledStmt.setLabelInfo L S) = L)
  /\ (forall (S : LabeledStmt.t) (KeywordLoc : SourceLoc),
      LabeledStmt.getLabelLocOrKeywordLoc S KeywordLoc
      = if empty (LabeledStmtInfo.Name (LabeledStmt.getLabelInfo S))
        then KeywordLoc else LabeledStmtInfo.Loc (LabeledStmt.getLabelInfo S)).
Proof.
  repeat split.
  - unfold LabeledStmtInfo.to_bool. intros H E. apply empty_iff in E.
    rewrite E in H. discriminate.
  - unfold LabeledStmtInfo.to_bool. intros H.
    destruct (empty (LabeledStmtInfo.Name I)) eqn:E; [|reflexivity].
    apply empty_iff in E. contradiction.
  - unfold LabeledStmtInfo.to_bool. by destruct (empty _).
  - unfold LabeledStmtInfo.to_bool. by intros ->.
  - intros S KeywordLoc. unfold LabeledStmt.getLabelLocOrKeywordLoc,
      LabeledStmt.getLabelInfo, LabeledStmtInfo.to_bool.
    by destruct (empty _).
Qed.

(** ** The implicit flag *)

(** C10.  Each constructor of the header that takes the optional
    [implicit] argument stores that value when one is given, and otherwise
    stores whether the location of the statement's keyword is invalid. *)
Theorem isImplicit_getDefaultImplicitFlag
    (implicit : option bool) (KeyLoc L1 L2 : SourceLoc) (p1 p2 p3 p4 : pointer)
    (c : StmtCondition) (D : list pointer) (LabelInfo : LabeledStmtInfo.t)
    (buffer : list pointer) (n : N) (name : Identifier) :
  let expected := match implicit with
                  | Some b => b
                  | None => isInvalid KeyLoc
                  end in
  isImplicit (ReturnStmt.base (ReturnStmt.ctor KeyLoc p1 implicit)) = expected
  /\ isImplicit (IfStmt.base (IfStmt.ctor KeyLoc c p1 L1 p2 implicit)) = expected
  /\ isImplicit (LabeledStmt.base (WhileStmt.base
       (WhileStmt.ctor LabelInfo KeyLoc c p1 implicit))) = expected
  /\ isImplicit (LabeledStmt.base (DoWhileStmt.base
       (DoWhileStmt.ctor LabelInfo KeyLoc p1 L1 p2 implicit))) = expected
  /\ isImplicit (LabeledStmt.base (ForStmt.base
       (ForStmt.ctor LabelInfo KeyLoc p1 D L1 p2 L2 p3 p4 implicit))) = expected
  /\ isImplicit (LabeledStmt.base (ForEachStmt.base
       (ForEachStmt.ctor LabelInfo KeyLoc p1 L1 p2 p3 implicit))) = expected
  /\ isImplicit (LabeledStmt.base (SwitchStmt.base
       (SwitchStmt.ctor buffer LabelInfo KeyLoc p1 L1 n L2 implicit))) = expected
  /\ isImplicit (BreakStmt.base (BreakStmt.ctor p1 KeyLoc name L1 implicit))
     = expected
  /\ isImplicit (ContinueStmt.base (ContinueStmt.ctor p1 KeyLoc name L1 implicit))
     = expected
  /\ isImplicit (FallthroughStmt.base (FallthroughStmt.ctor KeyLoc implicit))
     = expected.
Proof.
  intros expected.
  assert (H : getDefaultImplicitFlag implicit KeyLoc = expected) by reflexivity.
  repeat split;
    cbn [ReturnStmt.base ReturnStmt.ctor IfStmt.base IfStmt.ctor
         WhileStmt.base WhileStmt.ctor DoWhileStmt.base DoWhileStmt.ctor
         ForStmt.base ForStmt.ctor ForEachStmt.base ForEachStmt.ctor
         SwitchStmt.base SwitchStmt.ctor BreakStmt.base BreakStmt.ctor
         ContinueStmt.base ContinueStmt.ctor FallthroughStmt.base
         FallthroughStmt.ctor LabeledStmt.base LabeledStmt.ctor];
    rewrite isImplicit_Stmt_ctor; exact H.
Qed.

(** The factories of block and case clause, as modelled, follow the same
    rule with the opening brace and the [case] keyword. *)
Lemma isImplicit_create (memE : nat -> ASTNode) (memI : nat -> CaseLabelItem.t)
    (implicit : option bool) (KeyLoc L1 : SourceLoc) (els : list ASTNode)
    (items : list CaseLabelItem.t) (b : bool) (p : pointer) (C : CaseStmt.t) :
  CaseStmt.create memI KeyLoc items b L1 p implicit = Ok C ->
  isImplicit (BraceStmt.base (BraceStmt.create memE KeyLoc els L1 implicit))
  = getDefaultImplicitFlag implicit KeyLoc
  /\ isImplicit (CaseStmt.base C) = getDefaultImplicitFlag implicit KeyLoc.
Proof.
  intros H. apply CaseStmt_create_Ok in H as [_ ->].
  split; apply isImplicit_Stmt_ctor.
Qed.

(** ** Branch targets *)

(** The protocol fails on a break statement, also on one whose memory
    held null: a second resolution is accepted and replaces the first. *)
Lemma BreakStmt_not_two_state :
  ~ two_state_target (example_break nullptr) 100%N 200%N
  /\ resolve 200%N (BreakStmt.setTarget 100%N (example_break nullptr))
     = Ok (BreakStmt.setTarget 200%N (BreakStmt.setTarget 100%N (example_break nullptr)))
  /\ BreakStmt.getTarget
       (BreakStmt.setTarget 200%N (BreakStmt.setTarget 100%N (example_break nullptr)))
     = 200%N.
Proof.
  split; [|split; reflexivity].
  intros (_ & S' & _ & _ & msg & Hrej). discriminate Hrej.
Qed.

Lemma assert_true (msg : string) : assert true msg = Ok tt.
Proof. reflexivity. Qed.

Lemma FallthroughStmt_set_unresolved (S : FallthroughStmt.t) (C : pointer) :
  FallthroughStmt.FallthroughDest S = nullptr ->
  FallthroughStmt.setFallthroughDest C S
  = Ok {| FallthroughStmt.base := FallthroughStmt.base S;
          FallthroughStmt.Loc := FallthroughStmt.Loc S;
          FallthroughStmt.FallthroughDest := C |}.
Proof. intros H. unfold FallthroughStmt.setFallthroughDest. rewrite H. reflexivity. Qed.

Lemma FallthroughStmt_set_resolved (S : FallthroughStmt.t) (C : pointer) :
  FallthroughStmt.FallthroughDest S <> nullptr ->
  FallthroughStmt.setFallthroughDest C S
  = AssertionFailed "fallthrough dest already set?!".
Proof.
  intros H. unfold FallthroughStmt.setFallthroughDest.
  destruct (N.eqb_spec (FallthroughStmt.FallthroughDest S) nullptr); [contradiction|].
  reflexivity.
Qed.

Lemma FallthroughStmt_get (S : FallthroughStmt.t) :
  FallthroughStmt.getFallthroughDest S
  = if (FallthroughStmt.FallthroughDest S =? nullptr)%N
    then AssertionFailed "fallthrough dest is not set until Sema"
    else Ok (FallthroughStmt.FallthroughDest S).
Proof.
  unfold FallthroughStmt.getFallthroughDest.
  by destruct (FallthroughStmt.FallthroughDest S =? nullptr)%N.
Qed.

(** C1, as the code has it.  A fallthrough statement whose destination is
    unset follows the two-state protocol for every non-null case reference
    [C]: the getter fails its assertion, one call of the setter with [C]
    succeeds, after it the getter returns [C], and any further call of the
    setter fails its assertion.  For break and continue the setter always
    succeeds and the getter returns the reference of the latest call. *)
Theorem branch_target_resolution
    (F : FallthroughStmt.t) (C C' : pointer)
    (Hunset : FallthroughStmt.FallthroughDest F = nullptr)
    (HC : C <> nullptr)
    (B : BreakStmt.t) (K : ContinueStmt.t) (LS LS' : pointer) :
  two_state_target F C C'
  /\ rejected (FallthroughStmt.getFallthroughDest F)
  /\ (BreakStmt.getTarget (BreakStmt.setTarget LS B) = LS
      /\ ~ rejected (resolve LS' (BreakStmt.setTarget LS B))
      /\ BreakStmt.getTarget (BreakStmt.setTarget LS' (BreakStmt.setTarget LS B))
         = LS')
  /\ (ContinueStmt.getTarget (ContinueStmt.setTarget LS K) = LS
      /\ ~ rejected (resolve LS' (ContinueStmt.setTarget LS K))
      /\ ContinueStmt.getTarget
           (ContinueStmt.setTarget LS' (ContinueStmt.setTarget LS K)) = LS').
Proof.
  assert (Hq : rejected (FallthroughStmt.getFallthroughDest F)).
  { rewrite FallthroughStmt_get, Hunset. eexists. reflexivity. }
  split; [|split; [exact Hq | repeat split; intros [msg Hr]; discriminate Hr]].
  unfold two_state_target. cbn [resolve target FallthroughStmt_transfer]. split.
  - left. exact Hq.
  - rewrite (FallthroughStmt_set_unresolved F C Hunset).
    eexists. split; [reflexivity|]. split.
    + rewrite FallthroughStmt_get. cbn [FallthroughStmt.FallthroughDest].
      by destruct (N.eqb_spec C nullptr).
    + rewrite FallthroughStmt_set_resolved by exact HC. eexists. reflexivity.
Qed.

Lemma branch_target_resolution_witness :
  two_state_target example_fallthrough 100%N 200%N.
Proof.
  apply (branch_target_resolution example_fallthrough 100%N 200%N eq_refl
           ltac:(discriminate) (example_break nullptr) (example_continue nullptr)
           100%N 200%N).
Defined.

(** A freshly constructed fallthrough statement is in the unset state. *)
Lemma FallthroughStmt_ctor_unset (Loc : SourceLoc) (implicit : option bool) :
  FallthroughStmt.FallthroughDest (FallthroughStmt.ctor Loc implicit) = nullptr
  /\ rejected (FallthroughStmt.getFallthroughDest (FallthroughStmt.ctor Loc implicit)).
Proof. split; [reflexivity|]. eexists. reflexivity. Qed.

(** C2, where the code departs from it.  The target of a freshly
    constructed break or continue statement is whatever the memory of the
    node held before: the constructors leave [Target] out of their
    initialiser lists.  With the bits [0xdeadbeef] there, the getter
    returns that value as if it were a resolved target, and the same
    arguments give nodes with different targets.  The fallthrough
    constructor does initialise its destination to null. *)
Theorem fresh_branch_target_is_prior_memory :
  (forall (mem_Target : pointer) Loc TargetName TargetLoc implicit,
      BreakStmt.getTarget (BreakStmt.ctor mem_Target Loc TargetName TargetLoc implicit)
      = mem_Target
      /\ ContinueStmt.getTarget
           (ContinueStmt.ctor mem_Target Loc TargetName TargetLoc implicit)
         = mem_Target)
  /\ BreakStmt.getTarget (example_break 3735928559%N) = 3735928559%N
  /\ BreakStmt.getTarget (example_break 3735928559%N) <> nullptr
  /\ BreakStmt.getTarget (example_break 3735928559%N)
     = BreakStmt.getTarget (BreakStmt.setTarget 3735928559%N (example_break nullptr))
  /\ BreakStmt.getTarget (example_break 3735928559%N)
     <> BreakStmt.getTarget (example_break nullptr)
  /\ ContinueStmt.getTarget (example_continue 3735928559%N) <> nullptr
  /\ (forall Loc implicit,
      FallthroughStmt.FallthroughDest (FallthroughStmt.ctor Loc implicit) = nullptr).
Proof.
  repeat split; try reflexivity; discriminate.
Qed.

(** ** Source ranges *)

(** A node stores the locations it is given without comparing them, and
    the end of the range of a break follows the validity of the target
    location, not the name: that a range ends at or after its start, and
    that a break without target name ends at its keyword, rests on the
    order and the pairing in which the parser supplies the locations,
    [in_source_order] below. *)
Lemma source_range_not_always_ordered :
  ~ ordered (BreakStmt.getSourceRange example_break_backwards)
  /\ (empty (BreakStmt.getTargetName example_break_unnamed) = true
      /\ End (BreakStmt.getSourceRange example_break_unnamed)
         <> BreakStmt.getLoc example_break_unnamed).
Proof.
  split; [|split; [reflexivity | discriminate]].
  unfold ordered, loc_le. vm_compute. intros H. apply H. reflexivity.
Qed.





















(** ** What the public interface leaves fixed *)

(** Labels, target names, target locations and the flags of a block are
    written by public members. *)
Lemma public_setters_beyond_children :
  (exists W, mutate (Labeled_setLabelInfo example_label) (NWhile example_while)
             = Ok (NWhile W)
     /\ LabeledStmt.getLabelInfo (WhileStmt.base W)
        <> LabeledStmt.getLabelInfo (WhileStmt.base example_while))
  /\ (exists K, mutate (Break_setTargetName {| str := "outer" |})
                  (NBreak (example_break nullptr)) = Ok (NBreak K)
        /\ BreakStmt.getTargetName K
           <> BreakStmt.getTargetName (example_break nullptr))
  /\ (exists K, mutate (Break_setTargetLoc {| Value := 13 |})
                  (NBreak (example_break nullptr)) = Ok (NBreak K)
        /\ BreakStmt.getTargetLoc K
           <> BreakStmt.getTargetLoc (example_break nullptr)
        /\ BreakStmt.getSourceRange K
           <> BreakStmt.getSourceRange (example_break nullptr))
  /\ (exists B, mutate Brace_markAsConfigBlock (NBrace example_brace) = Ok (NBrace B)
        /\ BraceStmt.isConfigBlock B <> BraceStmt.isConfigBlock example_brace).
Proof.
  repeat split; eexists; (split; [reflexivity|]); repeat split; discriminate.
Qed.

Lemma fmap_Ok_inv {A B} (f : A -> B) (m : outcome A) (b : B) :
  f <$> m = Ok b -> exists a, m = Ok a /\ b = f a.
Proof. destruct m as [a|msg]; [|discriminate]. intros [= <-]. eauto. Qed.

Lemma setElement_Ok (i : nat) (x : ASTNode) (S S' : BraceStmt.t) :
  BraceStmt.setElement i x S = Ok S' ->
  S' = {| BraceStmt.base := BraceStmt.base S;
          BraceStmt.NumElements := BraceStmt.NumElements S;
          BraceStmt.IsConfigBlock := BraceStmt.IsConfigBlock S;
          BraceStmt.IsInactiveConfigBlock := BraceStmt.IsInactiveConfigBlock S;
          BraceStmt.LBLoc := BraceStmt.LBLoc S; BraceStmt.RBLoc := BraceStmt.RBLoc S;
          BraceStmt.ElementsStorage := <[i := x]> (BraceStmt.ElementsStorage S) |}.
Proof.
  unfold BraceStmt.setElement.
  destruct (at_index (BraceStmt.getElements S) i); [|discriminate].
  cbn. by intros [= <-].
Qed.

Lemma updateCaseLabelItem_Ok (i : nat) f (S S' : CaseStmt.t) :
  CaseStmt.updateCaseLabelItem i f S = Ok S' ->
  exists item,
    S' = {| CaseStmt.base := CaseStmt.base S; CaseStmt.CaseLoc := CaseStmt.CaseLoc S;
            CaseStmt.ColonLoc := CaseStmt.ColonLoc S;
            CaseStmt.BodyAndHasBoundDecls := CaseStmt.BodyAndHasBoundDecls S;
            CaseStmt.NumPatterns := CaseStmt.NumPatterns S;
            CaseStmt.CaseLabelItemsBuffer :=
              <[i := item]> (CaseStmt.CaseLabelItemsBuffer S) |}.
Proof.
  unfold CaseStmt.updateCaseLabelItem.
  destruct (at_index (CaseStmt.getCaseLabelItems S) i) as [item|]; [|discriminate].
  cbn. intros [= <-]. eauto.
Qed.

Lemma setFallthroughDest_Ok (C : pointer) (S S' : FallthroughStmt.t) :
  FallthroughStmt.setFallthroughDest C S = Ok S' ->
  S' = {| FallthroughStmt.base := FallthroughStmt.base S;
          FallthroughStmt.Loc := FallthroughStmt.Loc S;
          FallthroughStmt.FallthroughDest := C |}.
Proof.
  unfold FallthroughStmt.setFallthroughDest.
  destruct (assert _ _); [|discriminate]. cbn. by intros [= <-].
Qed.

(** Inversion of a successful call on a node, down to record updates. *)
Ltac mutate_inv H :=
  cbn in H;
  try discriminate H;
  try (apply fmap_Ok_inv in H as (? & H & ->));
  first
    [ apply setElement_Ok in H; subst
    | apply updateCaseLabelItem_Ok in H as (? & ->)
    | apply setFallthroughDest_Ok in H; subst
    | injection H as <- ].

Lemma mutate_fixed_part (m : Mutator) (n n' : Node) :
  mutate m n = Ok n' -> fixed_part n' = fixed_part n.
Proof.
  intros H.
  destruct m, n; mutate_inv H;
    unfold fixed_part; cbn; rewrite ?length_insert; reflexivity.
Qed.

Lemma constructed_kind (n : Node) :
  constructed n -> getKind (Node_base n) = kind_value (Node_class n).
Proof.
  intros []; try apply getKind_Stmt_ctor.
  match goal with H : CaseStmt.create _ _ _ _ _ _ _ = Ok _ |- _ =>
    apply CaseStmt_create_Ok in H as [_ ->] end.
  apply getKind_Stmt_ctor.
Qed.

Lemma mutates_fixed_part (ms : list Mutator) :
  forall n n' : Node, mutates ms n = Ok n' -> fixed_part n' = fixed_part n.
Proof.
  induction ms as [|m ms IH]; intros n n' H; cbn [mutates] in H.
  - by injection H as <-.
  - destruct (mutate m n) as [n1|msg] eqn:E; [|discriminate].
    cbn in H. rewrite (IH _ _ H). by eapply mutate_fixed_part.
Qed.

Lemma fixed_class_part (n : Node) : fixed_class (fixed_part n) = Node_class n.
Proof. by destruct n. Qed.

Lemma fixed_kind_part (n : Node) : fixed_kind (fixed_part n) = getKind (Node_base n).
Proof. by destruct n. Qed.

Lemma fixed_part_class (n n' : Node) :
  fixed_part n' = fixed_part n -> Node_class n' = Node_class n.
Proof. intros H. rewrite <- !fixed_class_part. by rewrite H. Qed.

Lemma fixed_part_kind (n n' : Node) :
  fixed_part n' = fixed_part n -> getKind (Node_base n') = getKind (Node_base n).
Proof. intros H. rewrite <- !fixed_kind_part. by rewrite H. Qed.

Lemma child_count_fixed (n n' : Node) :
  fixed_part n' = fixed_part n -> child_count n' = child_count n.
Proof.
  intros H.
  assert (Hc : Node_class n' = Node_class n) by by apply fixed_part_class.
  assert (Hn : fixed_count (fixed_part n') = fixed_count (fixed_part n))
    by exact (f_equal fixed_count H).
  assert (Hs : fixed_storage (fixed_part n') = fixed_storage (fixed_part n))
    by exact (f_equal fixed_storage H).
  destruct n, n'; try discriminate Hc; try reflexivity; cbn in Hn, Hs;
    injection Hn as Hn; cbn [child_count]; f_equal;
    unfold BraceStmt.getElements, CaseStmt.getCaseLabelItems, SwitchStmt.getCases,
      ArrayRef; rewrite !length_take, Hn, Hs; reflexivity.
Qed.

(** C7, as the code has it.  Whatever public members are called on a
    node, in any number and order, the node keeps its class, kind tag,
    implicit flag, child count, keyword, brace, colon and semicolon
    locations, the active flag of an if-config, the bound-declarations flag
    of a case clause and the case references of a switch, and its child
    storage keeps its size.  The members that write are those of
    [Mutator]: besides child references, conditions and branch targets
    they set label info, the target name and target location of break and
    continue, the two flags of a block, label items and the location of a
    trailing semicolon. *)
Theorem public_mutation_frame (ms : list Mutator) (n n' : Node)
    (Hm : mutates ms n = Ok n') :
  fixed_part n' = fixed_part n
  /\ Node_class n' = Node_class n
  /\ child_count n' = child_count n.
Proof.
  assert (H := mutates_fixed_part ms n n' Hm).
  split; [exact H|]. split; [by apply fixed_part_class|].
  by apply child_count_fixed.
Qed.

Lemma public_mutation_frame_witness :
  exists B, mutates example_run (NBrace example_brace) = Ok (NBrace B)
    /\ BraceStmt.getElements B = [ASTStmt 21%N; ASTStmt 77%N; ASTDecl 23%N]
    /\ child_count (NBrace B) = Some 3%nat.
Proof.
  eexists. split; [reflexivity|]. split; [reflexivity|].
  eapply eq_trans;
    [apply (public_mutation_frame example_run (NBrace example_brace)); reflexivity|].
  reflexivity.
Defined.

(** C8.  The kind accessor of a node returns the kind given to the base
    constructor, which for a node left by a constructor or factory is the
    tag of its class; no run of public calls changes it, so every category
    predicate of the header answers the same before and after. *)
Theorem kind_tag_is_stable (ms : list Mutator) (n n' : Node)
    (Hn : constructed n) (Hm : mutates ms n = Ok n') :
  (forall (k : StmtKind) (implicit : bool),
      getKind (Stmt_ctor k implicit) = kind_value k
      /\ kind_of_value (getKind (Stmt_ctor k implicit)) = Some k)
  /\ getKind (Node_base n) = kind_value (Node_class n)
  /\ getKind (Node_base n') = getKind (Node_base n)
  /\ kind_of_value (getKind (Node_base n')) = Some (Node_class n')
  /\ Forall (fun classof => classof (Node_base n') = classof (Node_base n)) classofs.
Proof.
  assert (H := mutates_fixed_part ms n n' Hm).
  assert (Hk : getKind (Node_base n') = getKind (Node_base n))
    by by apply fixed_part_kind.
  assert (Hc : Node_class n' = Node_class n) by by apply fixed_part_class.
  split; [|split; [|split; [|split]]].
  - intros k implicit. rewrite getKind_Stmt_ctor. split; [reflexivity|].
    apply kind_of_value_kind_value.
  - by apply constructed_kind.
  - exact Hk.
  - rewrite Hk, Hc, (constructed_kind n Hn). apply kind_of_value_kind_value.
  - unfold classofs. repeat constructor;
      unfold LabeledStmt.classof, BraceStmt.classof, ReturnStmt.classof,
        IfStmt.classof, IfConfigStmt.classof, WhileStmt.classof,
        DoWhileStmt.classof, ForStmt.classof, ForEachStmt.classof,
        CaseStmt.classof, SwitchStmt.classof, BreakStmt.classof,
        ContinueStmt.classof, FallthroughStmt.classof;
      rewrite Hk; reflexivity.
Qed.

Lemma kind_tag_is_stable_witness :
  exists K, mutates example_resolution (NBreak (example_break nullptr))
            = Ok (NBreak K)
    /\ getKind (BreakStmt.base K) = kind_value StmtKind.Break
    /\ BreakStmt.classof (BreakStmt.base K) = true.
Proof.
  eexists. split; [reflexivity|].
  destruct (kind_tag_is_stable example_resolution (NBreak (example_break nullptr))
              _ (constructed_Break _ _ _ _ _) eq_refl) as (_ & H0 & H1 & _).
  cbn [Node_base] in H0, H1.
  split; [exact (eq_trans H1 H0)|].
  unfold BreakStmt.classof. rewrite (eq_trans H1 H0). reflexivity.
Defined.

(** * Further properties of the header *)

(** ** One member, one field *)

Lemma mutate_read_other (m : Mutator) (n n' : Node) (f : Field) :
  mutate m n = Ok n' -> f <> written m -> read f n' = read f n.
Proof.
  intros H Hf.
  destruct m, n; mutate_inv H; destruct f;
    first [ reflexivity | exfalso; apply Hf; reflexivity ].
Qed.

Lemma mutate_read_stored (m : Mutator) (n n' : Node) (v : FieldValue) :
  mutate m n = Ok n' -> stored m = Some v -> read (written m) n' = Some v.
Proof.
  intros H Hv.
  destruct m, n; mutate_inv H; cbn in Hv; try discriminate Hv;
    injection Hv as <-; reflexivity.
Qed.

Lemma whole_stored (m : Mutator) :
  whole (written m) = true -> exists v, stored m = Some v.
Proof. destruct m; cbn; intros H; try discriminate H; eauto. Qed.

Lemma mutates_read (ms : list Mutator) (f : Field) :
  whole f = true ->
  forall n n' : Node,
    mutates ms n = Ok n' ->
    read f n' = match last_write f ms with
                | Some v => Some v
                | None => read f n
                end.
Proof.
  intros Hf. induction ms as [|m ms IH]; intros n n' H; cbn [mutates] in H.
  - by injection H as <-.
  - destruct (mutate m n) as [n1|msg] eqn:E; [|discriminate].
    cbn in H. rewrite (IH _ _ H). cbn [last_write].
    destruct (last_write f ms) as [v|]; [reflexivity|].
    destruct (decide (written m = f)) as [<-|Hne].
    + destruct (whole_stored m Hf) as [v Hv]. rewrite Hv.
      by eapply mutate_read_stored.
    + by eapply mutate_read_other.
Qed.

(** X1.  A successful call of a public member changes one data member
    of the node, the one it writes, and no other: every other data member
    holds what it held before, the written member holds the value passed
    when the call stores a whole member, and the fixed part of the node is
    as before.  This is about the members as stored ([read]); a getter
    that checks the member before it returns it answers by what is
    stored: after [setResult] or a successful [setFallthroughDest] with a
    null argument, [getResult] and [getFallthroughDest] fail their
    assertion, and with another argument they return it. *)
Theorem setter_writes_one_field (m : Mutator) (n n' : Node)
    (Hm : mutate m n = Ok n') :
  (forall f : Field, f <> written m -> read f n' = read f n)
  /\ (forall v : FieldValue, stored m = Some v -> read (written m) n' = Some v)
  /\ fixed_part n' = fixed_part n
  /\ (forall e X, m = Return_setResult e -> n = NReturn X ->
      exists X', n' = NReturn X'
        /\ ReturnStmt.hasResult X' = nonnull e
        /\ ReturnStmt.getResult X'
           = if nonnull e then Ok e
             else AssertionFailed "ReturnStmt doesn't have a result")
  /\ (forall C X, m = Fallthrough_setFallthroughDest C -> n = NFallthrough X ->
      exists X', n' = NFallthrough X'
        /\ FallthroughStmt.getFallthroughDest X'
           = if nonnull C then Ok C
             else AssertionFailed "fallthrough dest is not set until Sema").
Proof.
  split; [|split; [|split; [|split]]].
  - intros f Hf. by eapply mutate_read_other.
  - intros v Hv. by eapply mutate_read_stored.
  - by eapply mutate_fixed_part.
  - intros e X -> ->. cbn in Hm. injection Hm as <-.
    eexists. split; [reflexivity|].
    unfold ReturnStmt.hasResult, ReturnStmt.getResult, nonnull, nullptr. cbn.
    split; [reflexivity|]. by destruct (e =? 0)%N.
  - intros C X -> ->. cbn in Hm.
    unfold FallthroughStmt.setFallthroughDest in Hm.
    destruct (FallthroughStmt.FallthroughDest X =? nullptr)%N; [|discriminate].
    cbn in Hm. injection Hm as <-.
    eexists. split; [reflexivity|].
    unfold FallthroughStmt.getFallthroughDest, nonnull, nullptr. cbn.
    by destruct (C =? 0)%N.
Qed.

Lemma setter_writes_one_field_witness :
  (exists n', mutate (ForEach_setGenerator 81%N)
                (NForEach (ForEachStmt.ctor LabeledStmtInfo.default {| Value := 4 |}
                             61%N {| Value := 6 |} 62%N 63%N None)) = Ok n'
     /\ read F_Generator n' = Some (VPtr 81%N)
     /\ read F_Pat n' = Some (VPtr 61%N)
     /\ read F_GeneratorNext n' = Some (VPtr nullptr))
  /\ (exists X', mutate (Return_setResult nullptr) (NReturn example_return)
                 = Ok (NReturn X')
        /\ read F_Result (NReturn X') = Some (VPtr nullptr)
        /\ ReturnStmt.getResult X'
           = AssertionFailed "ReturnStmt doesn't have a result").
Proof.
  split.
  - eexists. split; [reflexivity|].
    destruct (setter_writes_one_field (ForEach_setGenerator 81%N)
                (NForEach (ForEachStmt.ctor LabeledStmtInfo.default {| Value := 4 |}
                             61%N {| Value := 6 |} 62%N 63%N None)) _ eq_refl)
      as (Hother & Hset & _).
    split; [apply Hset; reflexivity|].
    split; (eapply eq_trans; [apply Hother; discriminate | reflexivity]).
  - destruct (setter_writes_one_field (Return_setResult nullptr)
                (NReturn example_return) _ eq_refl)
      as (_ & Hset & _ & Hget & _).
    destruct (Hget nullptr example_return eq_refl eq_refl) as (X' & HX' & _ & HR).
    exists X'. split; [by rewrite <- HX'|].
    split; [|exact HR]. rewrite <- HX'. by apply Hset.
Defined.

(** X2.  After a run of public calls that all succeed, a field written
    as a whole holds the value of the last call of the run that writes it,
    and its value from before the run when no call writes it.  So a break
    or continue target, a label, a body or a condition can be set any
    number of times and the last setting stands, and a flag of a block is
    true after the run exactly when it was true before or the run marks
    it. *)
Theorem last_write_wins (ms : list Mutator) (f : Field) (n n' : Node)
    (Hf : whole f = true) (Hm : mutates ms n = Ok n') :
  read f n' = match last_write f ms with
              | Some v => Some v
              | None => read f n
              end.
Proof.
  revert n Hm. induction ms as [|m ms IH]; intros n Hm; cbn [mutates] in Hm.
  - by injection Hm as <-.
  - destruct (mutate m n) as [n1|msg] eqn:E; [|discriminate].
    cbn in Hm. rewrite (IH _ Hm). cbn [last_write].
    destruct (last_write f ms) as [v|]; [reflexivity|].
    destruct (decide (written m = f)) as [<-|Hne].
    + destruct (whole_stored m Hf) as [v Hv]. rewrite Hv.
      by eapply mutate_read_stored.
    + by eapply mutate_read_other.
Qed.

Lemma last_write_wins_witness :
  exists n', mutates example_resolution (NBreak (example_break 5%N)) = Ok n'
    /\ read F_Target n' = Some (VPtr 72%N)
    /\ read F_TargetLoc n' = Some (VLoc SourceLoc_default).
Proof.
  eexists. split; [reflexivity|]. split.
  - apply (last_write_wins example_resolution F_Target
             (NBreak (example_break 5%N)) _ eq_refl eq_refl).
  - apply (last_write_wins example_resolution F_TargetLoc
             (NBreak (example_break 5%N)) _ eq_refl eq_refl).
Defined.

(** ** Class predicates *)

Lemma classof_of_tag (k : StmtKind) (S : Stmt) :
  classof_of k S = bool_decide (getKind S = kind_value k).
Proof. by destruct k. Qed.

Lemma mutates_kind (ms : list Mutator) (n n' : Node) :
  constructed n -> mutates ms n = Ok n' ->
  getKind (Node_base n') = kind_value (Node_class n').
Proof.
  intros Hn Hm. assert (H := mutates_fixed_part ms n n' Hm).
  rewrite (fixed_part_kind _ _ H), (fixed_part_class _ _ H).
  by apply constructed_kind.
Qed.

(** X3.  On a node left by a constructor or factory, after any run of
    public calls, the class predicate of a concrete class answers true for
    the class of the node and false for the twelve others, and the
    predicate of the labeled statements agrees with the disjunction of the
    predicates of its five subclasses. *)
Theorem classof_exact (ms : list Mutator) (n n' : Node)
    (Hn : constructed n) (Hm : mutates ms n = Ok n') :
  (forall k : StmtKind,
      classof_of k (Node_base n') = bool_decide (k = Node_class n'))
  /\ LabeledStmt.classof (Node_base n')
     = WhileStmt.classof (Node_base n') || DoWhileStmt.classof (Node_base n')
       || ForStmt.classof (Node_base n') || ForEachStmt.classof (Node_base n')
       || SwitchStmt.classof (Node_base n').
Proof.
  assert (Hk := mutates_kind ms n n' Hn Hm).
  assert (Hall : forall k : StmtKind,
             classof_of k (Node_base n') = bool_decide (k = Node_class n')).
  { intros k. rewrite classof_of_tag, Hk.
    apply bool_decide_ext. split; [|by intros ->].
    intros H. symmetry. by apply kind_value_inj. }
  split; [exact Hall|].
  rewrite (Hall StmtKind.While : WhileStmt.classof _ = _),
    (Hall StmtKind.DoWhile : DoWhileStmt.classof _ = _),
    (Hall StmtKind.For : ForStmt.classof _ = _),
    (Hall StmtKind.ForEach : ForEachStmt.classof _ = _),
    (Hall StmtKind.Switch : SwitchStmt.classof _ = _).
  unfold LabeledStmt.classof. rewrite Hk.
  by destruct (Node_class n').
Qed.

Lemma classof_exact_witness :
  exists n', mutates example_run (NBrace example_brace) = Ok n'
    /\ BraceStmt.classof (Node_base n') = true
    /\ CaseStmt.classof (Node_base n') = false.
Proof.
  eexists. split; [reflexivity|].
  destruct (classof_exact example_run (NBrace example_brace) _
              (constructed_Brace _ _ _ _ _) eq_refl) as [H _].
  split; [exact (H StmtKind.Brace) | exact (H StmtKind.Case)].
Defined.

(** ** The registry, for any order of the entries *)

(** X4.  For every definition file that lists each kind once, the
    labeled kinds together and followed by their range entry naming the
    first and the last of them: the macros give each kind its position in
    the list as tag, so the tags are distinct; the two range enumerators
    repeat the tags of the first and last labeled kind without disturbing
    the numbering of the kinds after them; and the two-comparison range
    check holds exactly for the labeled kinds. *)
Theorem enum_numbering_any_order (pre labeled post : list StmtKind)
    (first last_ : StmtKind)
    (Hdistinct : NoDup (pre ++ labeled ++ post))
    (Hfirst : head labeled = Some first)
    (Hlast : last labeled = Some last_) :
  let table := enum_of_def (StmtNodes_def_of pre labeled post first last_) in
  (forall (i : nat) (k : StmtKind),
      (pre ++ labeled ++ post) !! i = Some k ->
      lookup_enum (Id k) table = Some (Z.of_nat i))
  /\ lookup_enum (First_ Labeled) table = lookup_enum (Id first) table
  /\ lookup_enum (Last_ Labeled) table = lookup_enum (Id last_) table
  /\ (forall k : StmtKind,
      k ∈ pre ++ labeled ++ post ->
      range_check table k = true <-> k ∈ labeled).
Proof.
  intros table.
  assert (Hpl : NoDup (pre ++ labeled)).
  { rewrite app_assoc in Hdistinct. by apply NoDup_app in Hdistinct as (? & _ & _). }
  assert (Ht : table = table_explicit pre labeled post)
    by by apply table_is_explicit.
  assert (Hpos : forall (i : nat) (k : StmtKind),
             (pre ++ labeled ++ post) !! i = Some k ->
             lookup_enum (Id k) table = Some (Z.of_nat i)).
  { intros i k Hi. rewrite Ht. by apply table_explicit_position. }
  destruct (table_explicit_bounds pre labeled post Hdistinct) as [Hf Hl].
  assert (Hne : (0 < length labeled)%nat)
    by (destruct labeled; [discriminate | cbn; lia]).
  split; [exact Hpos|]. split; [|split].
  - rewrite Ht at 1. rewrite Hf. symmetry.
    replace (Z.of_nat (length pre)) with (Z.of_nat (length pre + 0)) by (f_equal; lia).
    apply Hpos. rewrite lookup_app_r by lia.
    replace (length pre + 0 - length pre)%nat with 0%nat by lia.
    apply lookup_app_l_Some. by rewrite <- head_lookup.
  - rewrite Ht at 1. rewrite Hl. symmetry.
    replace (Z.of_nat (length pre) + Z.of_nat (length labeled) - 1)
      with (Z.of_nat (length pre + pred (length labeled))) by lia.
    apply Hpos. rewrite lookup_app_r by lia.
    replace (length pre + pred (length labeled) - length pre)%nat
      with (pred (length labeled)) by lia.
    apply lookup_app_l_Some. by rewrite <- last_lookup.
  - intros k Hk. by apply range_check_any_order.
Qed.

Lemma enum_numbering_any_order_witness :
  lookup_enum (Id StmtKind.Switch)
    (enum_of_def
       (StmtNodes_def_of [StmtKind.Return; StmtKind.Brace]
          [StmtKind.Switch; StmtKind.For] [StmtKind.Case]
          StmtKind.Switch StmtKind.For)) = Some 2
  /\ lookup_enum (Id StmtKind.Case)
       (enum_of_def
          (StmtNodes_def_of [StmtKind.Return; StmtKind.Brace]
             [StmtKind.Switch; StmtKind.For] [StmtKind.Case]
             StmtKind.Switch StmtKind.For)) = Some 4.
Proof.
  assert (Hnd : NoDup ([StmtKind.Return; StmtKind.Brace]
                       ++ [StmtKind.Switch; StmtKind.For] ++ [StmtKind.Case])).
  { cbn [app]. repeat (apply NoDup_cons_2;
      [rewrite ?elem_of_cons, elem_of_nil; intuition discriminate|]).
    apply NoDup_nil_2. }
  destruct (enum_numbering_any_order [StmtKind.Return; StmtKind.Brace]
              [StmtKind.Switch; StmtKind.For] [StmtKind.Case]
              StmtKind.Switch StmtKind.For Hnd eq_refl eq_refl) as [H _].
  split; [exact (H 2%nat StmtKind.Switch eq_refl)
         | exact (H 4%nat StmtKind.Case eq_refl)].
Defined.

(** ** Return *)

(** X5.  The result of a return statement can be read exactly when
    [hasResult] holds: the getter fails its assertion on a statement
    without result and returns the stored expression otherwise.  Setting a
    non-null expression makes it the result whatever was there before, and
    setting null removes the result, so that the getter fails again; the
    location of the keyword is not touched. *)
Theorem ReturnStmt_result (S : ReturnStmt.t) (e : pointer) (He : e <> nullptr) :
  (rejected (ReturnStmt.getResult S) <-> ReturnStmt.hasResult S = false)
  /\ (ReturnStmt.hasResult S = true ->
      ReturnStmt.getResult S = Ok (ReturnStmt.Result S))
  /\ ReturnStmt.hasResult (ReturnStmt.setResult e S) = true
  /\ ReturnStmt.getResult (ReturnStmt.setResult e S) = Ok e
  /\ ReturnStmt.hasResult (ReturnStmt.setResult nullptr S) = false
  /\ rejected (ReturnStmt.getResult (ReturnStmt.setResult nullptr S))
  /\ ReturnStmt.getResult (ReturnStmt.setResult e (ReturnStmt.setResult nullptr S))
     = Ok e
  /\ ReturnStmt.getReturnLoc (ReturnStmt.setResult e S) = ReturnStmt.getReturnLoc S.
Proof.
  assert (Hget : forall R : ReturnStmt.t,
             ReturnStmt.getResult R
             = if ReturnStmt.hasResult R then Ok (ReturnStmt.Result R)
               else AssertionFailed "ReturnStmt doesn't have a result").
  { intros R. unfold ReturnStmt.getResult, ReturnStmt.hasResult, nullptr.
    by destruct (ReturnStmt.Result R =? 0)%N. }
  assert (Hhas : forall R : ReturnStmt.t,
             ReturnStmt.hasResult (ReturnStmt.setResult e R) = true).
  { intros R. unfold ReturnStmt.hasResult, ReturnStmt.setResult.
    cbn [ReturnStmt.Result]. by destruct (N.eqb_spec e 0). }
  split; [|split; [|split; [|split; [|split; [|split; [|split]]]]]].
  - rewrite Hget. destruct (ReturnStmt.hasResult S); split; try done.
    + intros [msg H]. discriminate H.
    + intros _. eexists. reflexivity.
  - intros H. by rewrite Hget, H.
  - apply Hhas.
  - by rewrite Hget, Hhas.
  - reflexivity.
  - eexists. reflexivity.
  - by rewrite Hget, Hhas.
  - reflexivity.
Qed.

Lemma ReturnStmt_result_witness :
  ReturnStmt.getResult (ReturnStmt.setResult 56%N example_return) = Ok 56%N.
Proof.
  apply (ReturnStmt_result example_return 56%N). discriminate.
Defined.

(** ** Writes through the mutable views *)







(** ** Runs on one node *)

Lemma mutate_Fallthrough (m : Mutator) (S : FallthroughStmt.t) (n' : Node) :
  mutate m (NFallthrough S) = Ok n' ->
  exists S', n' = NFallthrough S'
    /\ FallthroughStmt.getLoc S' = FallthroughStmt.getLoc S
    /\ (is_setFallthroughDest m = true ->
        FallthroughStmt.FallthroughDest S = nullptr)
    /\ (is_setFallthroughDest m = false ->
        FallthroughStmt.FallthroughDest S' = FallthroughStmt.FallthroughDest S).
Proof.
  intros H. destruct m; cbn in H; try discriminate H;
    try (injection H as <-; eexists; repeat split; intros; done).
  destruct (N.eqb_spec (FallthroughStmt.FallthroughDest S) nullptr) as [E|E].
  - rewrite (FallthroughStmt_set_unresolved S C E) in H. cbn in H.
    injection H as <-. eexists. repeat split; intros; done.
  - rewrite (FallthroughStmt_set_resolved S C E) in H. discriminate H.
Qed.

(** X8.  Resolution of a fallthrough is final: once the destination is a
    non-null case reference, a run of public calls that succeeds contains
    no call of the setter, and after it the destination is the same and
    the getter returns it.  The setter called with null on an unresolved
    statement passes its assertion and leaves the statement unresolved, so
    that only a non-null reference counts as the resolution. *)
Theorem FallthroughStmt_resolution_is_final (ms : list Mutator)
    (S : FallthroughStmt.t) (n' : Node)
    (Hres : FallthroughStmt.FallthroughDest S <> nullptr)
    (Hm : mutates ms (NFallthrough S) = Ok n') :
  (exists S', n' = NFallthrough S'
     /\ FallthroughStmt.FallthroughDest S' = FallthroughStmt.FallthroughDest S
     /\ FallthroughStmt.getFallthroughDest S'
        = Ok (FallthroughStmt.FallthroughDest S))
  /\ Forall (fun m => is_setFallthroughDest m = false) ms
  /\ (forall F : FallthroughStmt.t,
        FallthroughStmt.FallthroughDest F = nullptr ->
        exists F', FallthroughStmt.setFallthroughDest nullptr F = Ok F'
          /\ FallthroughStmt.FallthroughDest F' = nullptr
          /\ rejected (FallthroughStmt.getFallthroughDest F')
          /\ forall C, ~ rejected (FallthroughStmt.setFallthroughDest C F')).
Proof.
  assert (Hrun : (exists S', n' = NFallthrough S'
                    /\ FallthroughStmt.FallthroughDest S'
                       = FallthroughStmt.FallthroughDest S)
                 /\ Forall (fun m => is_setFallthroughDest m = false) ms).
  { revert S Hres Hm. induction ms as [|m ms IH]; intros S Hres Hm;
      cbn [mutates] in Hm.
    - injection Hm as <-. split; [eauto | constructor].
    - destruct (mutate m (NFallthrough S)) as [n1|msg] eqn:E; [|discriminate].
      cbn in Hm.
      apply mutate_Fallthrough in E as (S1 & -> & _ & Hset & Hkeep).
      destruct (is_setFallthroughDest m) eqn:Em;
        [exfalso; by apply Hres, Hset|].
      specialize (Hkeep eq_refl).
      destruct (IH S1) as ((S' & -> & Hd) & Hall); [by rewrite Hkeep | exact Hm |].
      split; [exists S'; split; [reflexivity | by rewrite Hd]|].
      by constructor. }
  destruct Hrun as ((S' & -> & Hd) & Hall).
  split; [|split; [exact Hall|]].
  - exists S'. split; [reflexivity|]. split; [exact Hd|].
    rewrite FallthroughStmt_get, Hd.
    by destruct (N.eqb_spec (FallthroughStmt.FallthroughDest S) nullptr).
  - intros F HF. rewrite (FallthroughStmt_set_unresolved F nullptr HF).
    eexists. split; [reflexivity|]. split; [reflexivity|].
    split; [rewrite FallthroughStmt_get; eexists; reflexivity|].
    intros C [msg H].
    rewrite FallthroughStmt_set_unresolved in H by reflexivity. discriminate H.
Qed.

Lemma FallthroughStmt_resolution_is_final_witness :
  exists F n',
    FallthroughStmt.setFallthroughDest 20%N example_fallthrough = Ok F
    /\ mutates [Stmt_TrailingSemiLoc {| Value := 9 |}] (NFallthrough F) = Ok n'
    /\ exists F', n' = NFallthrough F'
         /\ FallthroughStmt.getFallthroughDest F' = Ok 20%N.
Proof.
  eexists. eexists. split; [reflexivity|]. split; [reflexivity|].
  destruct (FallthroughStmt_resolution_is_final
              [Stmt_TrailingSemiLoc {| Value := 9 |}]
              {| FallthroughStmt.base := FallthroughStmt.base example_fallthrough;
                 FallthroughStmt.Loc := FallthroughStmt.Loc example_fallthrough;
                 FallthroughStmt.FallthroughDest := 20%N |} _
              ltac:(discriminate) eq_refl) as ((F' & HF' & _ & Hget) & _).
  exists F'. split; [exact HF' | exact Hget].
Defined.

Lemma mutates_IfConfig_inv (ms : list Mutator) (S : IfConfigStmt.t) (n' : Node) :
  mutates ms (NIfConfig S) = Ok n' ->
  exists S', n' = NIfConfig S'
    /\ IfConfigStmt.IfBlockIsActive S' = IfConfigStmt.IfBlockIsActive S
    /\ IfConfigStmt.ElseLoc S' = IfConfigStmt.ElseLoc S.
Proof.
  intros H. apply mutates_fixed_part in H.
  pose proof (fixed_part_class _ _ H) as Hc.
  destruct n'; try discriminate Hc.
  eexists. split; [reflexivity|].
  unfold fixed_part in H. cbn in H. by injection H as _ _ _ -> _ ->.
Qed.

(** X9.  The branch an if-config statement yields as active is chosen by
    the flag given at construction, which no public call changes.  After a
    run of calls that succeeds, the active statement is the last one set
    for that branch, or the one from before the run when the run sets none;
    what is set for the other branch, and the condition, do not show.
    [hasElse] is the validity of the location of the else keyword given at
    construction, whatever the else statement is: no public call changes
    that location, so [hasElse] answers after the run as it was
    constructed to. *)
Theorem IfConfigStmt_active_branch (ms : list Mutator) (S : IfConfigStmt.t)
    (n' : Node) (Hm : mutates ms (NIfConfig S) = Ok n') :
  exists S', n' = NIfConfig S'
    /\ IfConfigStmt.isIfBlockActive S' = IfConfigStmt.isIfBlockActive S
    /\ IfConfigStmt.hasElse S' = IfConfigStmt.hasElse S
    /\ Some (VPtr (IfConfigStmt.getActiveStmt S'))
       = match last_write (if IfConfigStmt.isIfBlockActive S
                           then F_Then else F_Else) ms with
         | Some v => Some v
         | None => Some (VPtr (IfConfigStmt.getActiveStmt S))
         end
    /\ IfConfigStmt.getElseLoc S' = IfConfigStmt.getElseLoc S
    /\ IfConfigStmt.hasElse S' = isValid (IfConfigStmt.getElseLoc S)
    /\ (forall active IfLoc Cond Then ElseLoc Else EndLoc,
        S = IfConfigStmt.ctor active IfLoc Cond Then ElseLoc Else EndLoc ->
        IfConfigStmt.hasElse S' = isValid ElseLoc
        /\ IfConfigStmt.isIfBlockActive S' = active
        /\ (last_write (if active then F_Then else F_Else) ms = None ->
            IfConfigStmt.getActiveStmt S' = if active then Then else Else)).
Proof.
  destruct (mutates_IfConfig_inv ms S n' Hm) as (S' & -> & Ha & Hl).
  assert (Hact : Some (VPtr (IfConfigStmt.getActiveStmt S'))
                 = match last_write (if IfConfigStmt.isIfBlockActive S
                                     then F_Then else F_Else) ms with
                   | Some v => Some v
                   | None => Some (VPtr (IfConfigStmt.getActiveStmt S))
                   end).
  { unfold IfConfigStmt.getActiveStmt, IfConfigStmt.isIfBlockActive. rewrite Ha.
    destruct (IfConfigStmt.IfBlockIsActive S).
    - exact (mutates_read ms F_Then eq_refl _ _ Hm).
    - exact (mutates_read ms F_Else eq_refl _ _ Hm). }
  exists S'. split; [reflexivity|]. split; [exact Ha|].
  split; [unfold IfConfigStmt.hasElse; by rewrite Hl|].
  split; [exact Hact|]. split; [exact Hl|].
  split; [unfold IfConfigStmt.hasElse, IfConfigStmt.getElseLoc; by rewrite Hl|].
  intros active IfLoc Cond Then ElseLoc Else EndLoc ->.
  split; [unfold IfConfigStmt.hasElse; by rewrite Hl|].
  split; [exact Ha|].
  intros Hno. cbn [IfConfigStmt.isIfBlockActive IfConfigStmt.ctor
                   IfConfigStmt.IfBlockIsActive] in Hact.
  rewrite Hno in Hact. injection Hact as ->.
  unfold IfConfigStmt.getActiveStmt. cbn. reflexivity.
Qed.

Lemma IfConfigStmt_active_branch_witness :
  (exists S',
     mutates [IfConfig_setThenStmt 43%N; IfConfig_setElseStmt 44%N;
              IfConfig_setThenStmt 45%N] (NIfConfig example_ifconfig)
     = Ok (NIfConfig S')
     /\ IfConfigStmt.getActiveStmt S' = 44%N
     /\ IfConfigStmt.hasElse S' = false)
  /\ (exists S',
        mutates [IfConfig_setElseStmt nullptr; IfConfig_setCond 46%N]
          (NIfConfig (IfConfigStmt.ctor true {| Value := 3 |} 41%N 42%N
                        {| Value := 17 |} 47%N {| Value := 29 |}))
        = Ok (NIfConfig S')
        /\ IfConfigStmt.getActiveStmt S' = 42%N
        /\ IfConfigStmt.hasElse S' = true).
Proof.
  split.
  - destruct (IfConfigStmt_active_branch
                [IfConfig_setThenStmt 43%N; IfConfig_setElseStmt 44%N;
                 IfConfig_setThenStmt 45%N] example_ifconfig _ eq_refl)
      as (S' & HS' & _ & Hel & Hact & _).
    exists S'. split; [by rewrite <- HS'|]. split; [|exact Hel].
    cbn in Hact. by injection Hact.
  - destruct (IfConfigStmt_active_branch
                [IfConfig_setElseStmt nullptr; IfConfig_setCond 46%N]
                (IfConfigStmt.ctor true {| Value := 3 |} 41%N 42%N
                   {| Value := 17 |} 47%N {| Value := 29 |}) _ eq_refl)
      as (S' & HS' & _ & _ & _ & _ & _ & Hctor).
    destruct (Hctor _ _ _ _ _ _ _ eq_refl) as (Hel & _ & Hact).
    exists S'. split; [by rewrite <- HS'|].
    split; [exact (Hact eq_refl) | exact Hel].
Defined.

Lemma isDefault_via_flags (S : CaseStmt.t) :
  CaseStmt.isDefault S
  = at_index (CaseLabelItem.isDefault <$> CaseStmt.getCaseLabelItems S) 0.
Proof.
  unfold CaseStmt.isDefault, at_index.
  by destruct (CaseStmt.getCaseLabelItems S).
Qed.

Lemma fmap_insert_same {A B} (g : A -> B) (l : list A) (i : nat) (x y : A) :
  l !! i = Some x -> g y = g x -> g <$> <[i := y]> l = g <$> l.
Proof.
  intros Hi Hg. rewrite list_fmap_insert, Hg.
  apply list_insert_id. by rewrite list_lookup_fmap, Hi.
Qed.

Lemma mutate_Case (m : Mutator) (S : CaseStmt.t) (n' : Node) :
  mutate m (NCase S) = Ok n' ->
  exists S', n' = NCase S'
    /\ length (CaseStmt.getCaseLabelItems S') = length (CaseStmt.getCaseLabelItems S)
    /\ (is_assign m = false ->
        CaseLabelItem.isDefault <$> CaseStmt.getCaseLabelItems S'
        = CaseLabelItem.isDefault <$> CaseStmt.getCaseLabelItems S
        /\ CaseLabelItem.getWhereLoc <$> CaseStmt.getCaseLabelItems S'
           = CaseLabelItem.getWhereLoc <$> CaseStmt.getCaseLabelItems S).
Proof.
  intros H. destruct m; cbn in H; try discriminate H;
    try (injection H as <-; eexists; repeat split; done);
    apply fmap_Ok_inv in H as (S' & H & ->);
    apply getCaseLabelItems_update in H as (it & Hi & Hel);
    exists S'; (split; [reflexivity|]); rewrite Hel;
    (split; [apply length_insert|]);
    intros Ha; try discriminate Ha;
    split; by apply (fmap_insert_same _ _ _ it).
Qed.

(** X10.  The item setters never touch the default flag: after a run of
    public calls on a case clause that succeeds and assigns no whole label
    item, every label item has the default flag and the [where] location
    it had before, and [isDefault] of the clause answers as before, also
    when patterns and guards of the first item were replaced. *)
Theorem CaseStmt_default_flags_kept (ms : list Mutator) (S : CaseStmt.t)
    (n' : Node)
    (Hms : Forall (fun m => is_assign m = false) ms)
    (Hm : mutates ms (NCase S) = Ok n') :
  exists S', n' = NCase S'
    /\ CaseLabelItem.isDefault <$> CaseStmt.getCaseLabelItems S'
       = CaseLabelItem.isDefault <$> CaseStmt.getCaseLabelItems S
    /\ CaseLabelItem.getWhereLoc <$> CaseStmt.getCaseLabelItems S'
       = CaseLabelItem.getWhereLoc <$> CaseStmt.getCaseLabelItems S
    /\ CaseStmt.isDefault S' = CaseStmt.isDefault S.
Proof.
  assert (Hrun : exists S', n' = NCase S'
            /\ CaseLabelItem.isDefault <$> CaseStmt.getCaseLabelItems S'
               = CaseLabelItem.isDefault <$> CaseStmt.getCaseLabelItems S
            /\ CaseLabelItem.getWhereLoc <$> CaseStmt.getCaseLabelItems S'
               = CaseLabelItem.getWhereLoc <$> CaseStmt.getCaseLabelItems S).
  { revert S Hm. induction Hms as [|m ms Hnot Hms IH]; intros S Hm;
      cbn [mutates] in Hm.
    - injection Hm as <-. eauto.
    - destruct (mutate m (NCase S)) as [n1|msg] eqn:E; [|discriminate].
      cbn in Hm. apply mutate_Case in E as (S1 & -> & _ & Hkeep).
      destruct (Hkeep Hnot) as [Hd Hw].
      destruct (IH S1 Hm) as (S' & -> & Hd' & Hw').
      exists S'. by rewrite Hd', Hw', Hd, Hw. }
  destruct Hrun as (S' & -> & Hd & Hw).
  exists S'. split; [reflexivity|]. split; [exact Hd|]. split; [exact Hw|].
  by rewrite !isDefault_via_flags, Hd.
Qed.

Lemma CaseStmt_default_flags_kept_witness :
  exists S',
    mutates [CaseItem_setPattern 0 15%N; CaseItem_setGuardExpr 0 16%N;
             Case_setBody 24%N] (NCase example_case) = Ok (NCase S')
    /\ CaseStmt.isDefault S' = Ok false.
Proof.
  destruct (CaseStmt_default_flags_kept
              [CaseItem_setPattern 0 15%N; CaseItem_setGuardExpr 0 16%N;
               Case_setBody 24%N] example_case _
              ltac:(repeat constructor) eq_refl) as (S' & HS' & _ & _ & Hd).
  exists S'. split; [by rewrite <- HS'|]. exact Hd.
Defined.

(** X11.  [isDefault] fails the bounds assertion exactly on a case clause
    without label items.  No run of public calls changes the number of
    label items, so a clause on which [isDefault] answers keeps answering
    after any run that succeeds, and one on which it fails keeps
    failing. *)
Theorem CaseStmt_isDefault_needs_item (ms : list Mutator) (S : CaseStmt.t)
    (n' : Node) (Hm : mutates ms (NCase S) = Ok n') :
  (rejected (CaseStmt.isDefault S) <-> CaseStmt.getCaseLabelItems S = [])
  /\ exists S', n' = NCase S'
       /\ length (CaseStmt.getCaseLabelItems S')
          = length (CaseStmt.getCaseLabelItems S)
       /\ (rejected (CaseStmt.isDefault S') <-> rejected (CaseStmt.isDefault S)).
Proof.
  assert (Hrej : forall C : CaseStmt.t,
             rejected (CaseStmt.isDefault C)
             <-> length (CaseStmt.getCaseLabelItems C) = 0%nat).
  { intros C. unfold CaseStmt.isDefault.
    destruct (CaseStmt.getCaseLabelItems C) as [|item items]; cbn.
    - split; [done|]. intros _. eexists. reflexivity.
    - split; [intros [msg H]; discriminate H | discriminate]. }
  split.
  - rewrite Hrej. apply length_zero_iff_nil.
  - assert (H := mutates_fixed_part ms _ _ Hm).
    pose proof (fixed_part_class _ _ H) as Hc.
    destruct n' as [| | | | | | | |S'| | | |]; try discriminate Hc.
    apply child_count_fixed in H. cbn [child_count] in H. injection H as H.
    exists S'. split; [reflexivity|]. split; [exact H|].
    by rewrite !Hrej, H.
Qed.

Lemma CaseStmt_isDefault_needs_item_witness :
  exists S',
    mutates [CaseItem_assign 1 (CaseLabelItem.ctor false 18%N SourceLoc_default
                                  nullptr)] (NCase example_case) = Ok (NCase S')
    /\ length (CaseStmt.getCaseLabelItems S') = 2%nat.
Proof.
  destruct (CaseStmt_isDefault_needs_item
              [CaseItem_assign 1 (CaseLabelItem.ctor false 18%N SourceLoc_default
                                    nullptr)] example_case _ eq_refl)
    as (_ & S' & HS' & Hlen & _).
  exists S'. split; [by rewrite <- HS' | exact Hlen].
Defined.

(** ** Ranges under the public calls *)

(** X12.  The range of a block, a break, a continue or a fallthrough is
    made of the node's own locations.  No run of public calls moves its
    start, the only member that moves its end is [setTargetLoc] of a break
    or continue (the range then ends at the last location set when that is
    valid, and at the keyword otherwise), and the range of a block or of a
    fallthrough never changes.  A case clause keeps its keyword location;
    its body is the last one set.  It has no range when the body is null,
    and whenever it has one, the range starts at the keyword and ends where
    the body it then has ends. *)
Theorem own_range_under_mutation (ms : list Mutator) (n n' : Node)
    (Hm : mutates ms n = Ok n') :
  Start <$> own_range n' = Start <$> own_range n
  /\ (last_write F_TargetLoc ms = None -> own_range n' = own_range n)
  /\ (Node_class n = StmtKind.Brace \/ Node_class n = StmtKind.Fallthrough ->
      own_range n' = own_range n)
  /\ (forall L R, last_write F_TargetLoc ms = Some (VLoc L) ->
      own_range n = Some R ->
      own_range n'
      = Some {| Start := Start R; End := if isValid L then L else Start R |})
  /\ (forall C, n = NCase C ->
      exists C', n' = NCase C'
        /\ CaseStmt.getLoc C' = CaseStmt.getLoc C
        /\ Some (VPtr (CaseStmt.getBody C'))
           = match last_write F_Body ms with
             | Some v => Some v
             | None => Some (VPtr (CaseStmt.getBody C))
             end
        /\ forall (fuel : nat) (h : Arena) (ext : pointer -> SourceRange)
                  (p : pointer),
            deref h p = Some (NCase C') ->
            (CaseStmt.getBody C' = nullptr ->
             Stmt_getSourceRange fuel h ext p = None)
            /\ (forall R, Stmt_getSourceRange fuel h ext p = Some R ->
                Start R = CaseStmt.getLoc C
                /\ Stmt_getEndLoc (pred fuel) h ext (CaseStmt.getBody C')
                   = Some (End R))).
Proof.
  assert (H := mutates_fixed_part ms n n' Hm).
  pose proof (fixed_part_class _ _ H) as Hc.
  assert (HB := mutates_read ms F_Body eq_refl _ _ Hm).
  assert (HT := mutates_read ms F_TargetLoc eq_refl _ _ Hm).
  assert (Hlocs : fixed_locs (fixed_part n') = fixed_locs (fixed_part n))
    by by rewrite H.
  destruct n, n'; try discriminate Hc; cbn in Hlocs;
    cbn [own_range fmap option_fmap option_map Node_class].
  all: try (repeat split; try done; intros C E; discriminate E).
  - (* block *)
    injection Hlocs as HL HR.
    unfold BraceStmt.getSourceRange. rewrite HL, HR.
    repeat split; try done; try (intros C E; discriminate E).
    all: intros L R HL' _; rewrite HL' in HT; discriminate HT.
  - (* case clause *)
    injection Hlocs as HL _.
    repeat split; try done.
    intros C E. injection E as <-. eexists. split; [reflexivity|].
    split; [exact HL|]. split; [exact HB|].
    intros fuel h ext p Hp.
    destruct fuel as [|fuel]; cbn [Stmt_getSourceRange pred];
      [split; [reflexivity | discriminate]|].
    rewrite Hp. cbn [mbind option_bind node_range].
    unfold CaseStmt.getSourceRange, Stmt_getEndLoc. split.
    + intros ->. destruct fuel; [reflexivity|].
      cbn [Stmt_getSourceRange]. unfold deref. rewrite N.eqb_refl. reflexivity.
    + intros R HR.
      destruct (Stmt_getSourceRange fuel h ext _) as [Rb|]; [|discriminate].
      cbn in HR. injection HR as <-. split; [exact HL | reflexivity].
  - (* break *)
    injection Hlocs as HL.
    unfold BreakStmt.getSourceRange. rewrite HL.
    cbn in HT. unfold BreakStmt.getTargetLoc in *.
    split; [reflexivity|]. split; [|split; [|split]].
    + intros Hno. rewrite Hno in HT. injection HT as HT. by rewrite HT.
    + intros [E|E]; discriminate E.
    + intros L R HL' HR. rewrite HL' in HT. injection HT as ->.
      by injection HR as <-.
    + intros C E. discriminate E.
  - (* continue *)
    injection Hlocs as HL.
    unfold ContinueStmt.getSourceRange. rewrite HL.
    cbn in HT. unfold ContinueStmt.getTargetLoc in *.
    split; [reflexivity|]. split; [|split; [|split]].
    + intros Hno. rewrite Hno in HT. injection HT as HT. by rewrite HT.
    + intros [E|E]; discriminate E.
    + intros L R HL' HR. rewrite HL' in HT. injection HT as ->.
      by injection HR as <-.
    + intros C E. discriminate E.
  - (* fallthrough *)
    injection Hlocs as HL.
    unfold FallthroughStmt.getSourceRange. rewrite HL.
    repeat split; try done; try (intros C E; discriminate E).
    all: intros L R HL' _; rewrite HL' in HT; discriminate HT.
Qed.

Lemma own_range_under_mutation_witness :
  (exists n',
     mutates [Break_setTargetName {| str := "outer" |};
              Break_setTargetLoc {| Value := 20 |}]
       (NBreak example_break_unnamed) = Ok n'
     /\ own_range n'
        = Some {| Start := {| Value := 8 |}; End := {| Value := 20 |} |})
  /\ (exists C',
        mutates [Case_setBody nullptr] (NCase example_case) = Ok (NCase C')
        /\ Stmt_getSourceRange 3
             (fun p => if (p =? 16)%N then Some (NCase C') else example_arena p)
             example_other 16%N = None).
Proof.
  split.
  - eexists. split; [reflexivity|].
    destruct (own_range_under_mutation
                [Break_setTargetName {| str := "outer" |};
                 Break_setTargetLoc {| Value := 20 |}]
                (NBreak example_break_unnamed) _ eq_refl) as (_ & _ & _ & H & _).
    exact (eq_trans (H _ _ eq_refl eq_refl) eq_refl).
  - destruct (own_range_under_mutation [Case_setBody nullptr]
                (NCase example_case) _ eq_refl) as (_ & _ & _ & _ & H).
    destruct (H example_case eq_refl) as (C' & HC' & _ & Hbody & Hrange).
    exists C'. split; [by rewrite <- HC'|].
    apply Hrange; [reflexivity|]. cbn in Hbody. by injection Hbody.
Defined.

(** ** Order of calls *)

Ltac split_checks H :=
  repeat match type of H with
         | context [at_index ?a ?i] => destruct (at_index a i); cbn in H |- *
         | context [N.eqb ?a ?b] => destruct (N.eqb a b); cbn in H |- *
         end.

(** X13.  Calls that write different fields can be made in either
    order: when two public calls on a node succeed one after the other and
    write different fields, they also succeed in the other order and leave
    the same node. *)
Theorem setters_of_different_fields_commute (m1 m2 : Mutator) (n r : Node)
    (Hne : written m1 <> written m2)
    (H : mutates [m1; m2] n = Ok r) :
  mutates [m2; m1] n = Ok r.
Proof.
  destruct n, m1;
    try discriminate H;
    destruct m2;
    try (exfalso; apply Hne; reflexivity);
    try discriminate H;
    unfold mutates, mutate, BraceStmt.setElement, CaseStmt.updateCaseLabelItem,
      FallthroughStmt.setFallthroughDest, BraceStmt.getElements,
      CaseStmt.getCaseLabelItems, ArrayRef, assert in H |- *;
    cbn in H |- *; split_checks H; try discriminate H; exact H.
Qed.

Lemma setters_of_different_fields_commute_witness :
  mutates [Break_setTargetName {| str := "outer" |}; Break_setTarget 64%N]
    (NBreak (example_break 5%N))
  = mutates [Break_setTarget 64%N; Break_setTargetName {| str := "outer" |}]
      (NBreak (example_break 5%N)).
Proof.
  symmetry.
  apply (setters_of_different_fields_commute (Break_setTarget 64%N)
           (Break_setTargetName {| str := "outer" |}) (NBreak (example_break 5%N))).
  - discriminate.
  - reflexivity.
Defined.
